(** * PermissionsAndroid: the callback-to-promise bridge, embedded and verified

    Source: [Libraries/PermissionsAndroid/PermissionsAndroid.android.js].

    The module is a JavaScript class with one data field ([PERMISSIONS]) and
    three methods.  Each method builds a [Promise] around a call into a native
    module ([AndroidPermissions], [DialogManagerAndroid]) and hands that module
    two JavaScript callbacks.  Nothing happens afterwards until the native
    layer invokes one of the callbacks.

    The embedding is an explicit machine:
    - a heap of promises (state, pending reactions), with the reaction job
      queue of the JavaScript run-time;
    - one chronological trace of what the program did that the outside can
      see: native calls issued (with the callbacks they register), callbacks
      invoked by the native layer, promises settled;
    - the arrow functions of the source, defunctionalised: one constructor per
      arrow function, holding the variables it captures;
    - the environment as a list of firings, each naming a native call by its
      position in the trace, one of its two callbacks, and the arguments.

    The machine accepts every list of firings: a callback may be invoked any
    number of times, in any order, also after the promise has settled.  What
    the native layer promises about its callbacks is stated separately
    ([well_behaved]) and appears as a hypothesis where a property needs it.

    Read off the source and its Flow annotations: [permission], [title],
    [message], [perm] and [error] are strings, [result] and [shouldShow] are
    booleans; no value that crosses the bridge is a promise or an object, so
    [resolve(v)] fulfils with [v].  A call into a native module returns and
    does not throw.  The [then]/[catch] reactions of a settled promise run
    after the callback that settled it has returned and before the native
    layer invokes the next callback. *)

From stdpp Require Import base option list strings gmap.
From Stdlib Require Import Lia.

Local Open Scope string_scope.
Local Open Scope nat_scope.
Local Open Scope list_scope.

(** ** JavaScript values that cross the bridge *)

(** What the native layer passes to a callback and what a promise settles
    with: booleans ([result], [shouldShow]), strings ([perm], [error]) and
    [undefined] (a missing argument, the argument of [reject()]). *)
Inductive value :=
| VUndefined
| VBool (b : bool)
| VString (s : string).

(** [if (v)] *)
Definition truthy (v : value) : bool :=
  match v with
  | VUndefined => false
  | VBool b => b
  | VString EmptyString => false
  | VString (String _ _) => true
  end.

(** The [i]-th actual argument of a call; a missing one reads [undefined]. *)
Definition arg (i : nat) (args : list value) : value :=
  default VUndefined (args !! i).

(** ** Promises *)

Inductive outcome :=
| Fulfilled (v : value)
| Rejected (reason : value).

Inductive promise_state :=
| Pending
| Settled (o : outcome).

Definition payload (o : outcome) : value :=
  match o with Fulfilled v => v | Rejected r => r end.

(** The two arrow functions handed to [.then] and [.catch] (lines 136-137);
    [outer] is the promise whose [resolve]/[reject] they capture. *)
Inductive handler :=
| ThenGranted (outer : nat)   (* (granted) => resolve(granted) *)
| CatchErr (outer : nat).     (* (err) => reject(err) *)

Record reaction := Reaction {
  on_fulfilled : option handler;
  on_rejected : option handler;
  derived : nat
}.

Record cell := Cell {
  pstate : promise_state;
  reactions : list reaction
}.

Record job := Job {
  job_handler : option handler;
  job_arg : outcome;
  job_derived : nat
}.

(** ** Native modules and the callbacks of the source *)

Inductive native_call :=
| AP_checkPermission (permission : string)
| AP_requestPermission (permission : string)
| AP_shouldShowRequestPermissionRationale (permission : string)
| DM_showAlert (title : option string) (message : string).

(** One constructor per function value the source passes to a native method. *)
Inductive closure :=
| CheckResult (p : nat)                  (* l.95  (perm, result) => { resolve(result); } *)
| CheckError (p : nat)                   (* l.98  (error) => { reject(error); } *)
| RequestResult (p : nat)                (* l.113 (perm, result) => { resolve(result); } *)
| RequestError (p : nat)                 (* l.116 (error) => { reject(error); } *)
| RequestPermissionThunk (p : nat) (permission : string)
                                         (* l.134 let requestPermission = () => {...} *)
| RationaleResult (p : nat) (permission title message : string)
                                         (* l.142 (perm, shouldShow) => { if ... } *)
| RationaleError (p : nat)               (* l.159 (error) => { reject(error); } *)
| DialogDismissed (p : nat)              (* l.149 () => { showAlert(...); reject(); } *)
| EmptyObject.                           (* l.150 {} : not a function *)

Definition callable (cl : closure) : bool :=
  match cl with EmptyObject => false | _ => true end.

Inductive event :=
| EvNative (c : native_call) (cb1 cb2 : closure)
| EvCallback (h : nat) (cl : closure) (args : list value)
| EvSettle (p : nat) (o : outcome).

(** ** The machine *)

Record machine := Machine {
  this_PERMISSIONS : gmap string string;   (* the instance field [PERMISSIONS] *)
  promises : list cell;
  jobs : list job;
  trace : list event
}.

Definition with_promises (st : machine) (ps : list cell) : machine :=
  Machine (this_PERMISSIONS st) ps (jobs st) (trace st).
Definition with_jobs (st : machine) (js : list job) : machine :=
  Machine (this_PERMISSIONS st) (promises st) js (trace st).
Definition with_trace (st : machine) (tr : list event) : machine :=
  Machine (this_PERMISSIONS st) (promises st) (jobs st) tr.

(** The native calls issued so far, each with its two callback arguments; a
    call's position in this list is its handle. *)
Definition invocation : Type := native_call * closure * closure.

Definition as_invocation (e : event) : option invocation :=
  match e with
  | EvNative c cb1 cb2 => Some (c, cb1, cb2)
  | _ => None
  end.

Definition calls (st : machine) : list invocation := omap as_invocation (trace st).

Definition native_calls (st : machine) : list native_call := (λ i, i.1.1) <$> calls st.

Definition state_of (st : machine) (p : nat) : promise_state :=
  from_option pstate Pending (promises st !! p).

(** ** A state monad over the machine *)

Definition M (A : Type) : Type := machine → A * machine.

#[global] Instance M_ret : MRet M := λ A x st, (x, st).
#[global] Instance M_bind : MBind M := λ A B f m st, let '(a, st') := m st in f a st'.

Definition exec {A} (m : M A) (st : machine) : machine := (m st).2.

Definition emit (e : event) : M unit := λ st, (tt, with_trace st (trace st ++ [e])).

Definition enqueue (js : list job) : M unit := λ st, (tt, with_jobs st (jobs st ++ js)).

Definition new_promise : M nat := λ st,
  (length (promises st), with_promises st (promises st ++ [Cell Pending []])).

Definition mk_job (o : outcome) (r : reaction) : job :=
  Job (match o with Fulfilled _ => on_fulfilled r | Rejected _ => on_rejected r end)
      o (derived r).

(** [resolve]/[reject] of a promise: the first call settles it and schedules
    its reactions, every later call does nothing. *)
Definition settle (p : nat) (o : outcome) : M unit := λ st,
  match promises st !! p with
  | Some (Cell Pending rs) =>
      (emit (EvSettle p o);; enqueue (mk_job o <$> rs))
        (with_promises st (<[p := Cell (Settled o) []]> (promises st)))
  | _ => (tt, st)
  end.

Definition resolve (p : nat) (v : value) : M unit := settle p (Fulfilled v).
Definition reject (p : nat) (r : value) : M unit := settle p (Rejected r).

(** Registering a reaction on [p]: it waits while [p] is pending, and becomes
    a job at once when [p] has settled already. *)
Definition add_reaction (p : nat) (r : reaction) : M unit := λ st,
  match promises st !! p with
  | Some (Cell Pending rs) =>
      (tt, with_promises st (<[p := Cell Pending (rs ++ [r])]> (promises st)))
  | Some (Cell (Settled o) _) => enqueue [mk_job o r] st
  | None => (tt, st)
  end.

(** [p.then(onFulfilled, onRejected)]: a new promise [d], settled by the job
    that runs once [p] has settled. *)
Definition promise_react (p : nat) (onF onR : option handler) : M nat :=
  d ← new_promise; add_reaction p (Reaction onF onR d);; mret d.

Definition promise_then (p : nat) (h : handler) : M nat := promise_react p (Some h) None.
Definition promise_catch (p : nat) (h : handler) : M nat := promise_react p None (Some h).

(** [new Promise((resolve, reject) => ...)]: the executor runs at once. *)
Definition new_Promise (executor : nat → M unit) : M nat :=
  p ← new_promise; executor p;; mret p.

(** A call into a native module: it is queued for the native side together
    with its callbacks and returns at once. *)
Definition native (c : native_call) (cb1 cb2 : closure) : M unit :=
  emit (EvNative c cb1 cb2).

(** ** The reaction job queue *)

(** Both handlers are arrow functions whose body is the call itself, so they
    return what [resolve]/[reject] return: [undefined]. *)
Definition call_handler (h : handler) (x : value) : M value :=
  match h with
  | ThenGranted outer => resolve outer x;; mret VUndefined
  | CatchErr outer => reject outer x;; mret VUndefined
  end.

(** A reaction job: with a handler, the derived promise is resolved with what
    the handler returns; without one, the outcome passes through. *)
Definition run_job (j : job) : M unit :=
  match job_handler j with
  | Some h => v ← call_handler h (payload (job_arg j)); resolve (job_derived j) v
  | None => settle (job_derived j) (job_arg j)
  end.

Fixpoint run_jobs (fuel : nat) : M unit := λ st,
  match fuel, jobs st with
  | S n, j :: js => (run_job j;; run_jobs n) (with_jobs st js)
  | _, _ => (tt, st)
  end.

(** Every job comes from one reaction of one promise, so the jobs waiting plus
    the reactions registered bound the number of jobs that can still run. *)
Definition job_budget (st : machine) : nat :=
  length (jobs st) + sum_list ((λ c, length (reactions c)) <$> promises st).

(** Run the queue until it is empty ([drain_quiescent] below). *)
Definition drain : M unit := λ st, run_jobs (job_budget st) st.

(** ** The class [PermissionsAndroid] *)

(** Lines 60-85. *)
Definition PERMISSIONS : gmap string string :=
  list_to_map [
    ("READ_CALENDAR", "android.permission.READ_CALENDAR");
    ("WRITE_CALENDAR", "android.permission.WRITE_CALENDAR");
    ("CAMERA", "android.permission.CAMERA");
    ("READ_CONTACTS", "android.permission.READ_CONTACTS");
    ("WRITE_CONTACTS", "android.permission.WRITE_CONTACTS");
    ("GET_ACCOUNTS", "android.permission.GET_ACCOUNTS");
    ("ACCESS_FINE_LOCATION", "android.permission.ACCESS_FINE_LOCATION");
    ("ACCESS_COARSE_LOCATION", "android.permission.ACCESS_COARSE_LOCATION");
    ("RECORD_AUDIO", "android.permission.RECORD_AUDIO");
    ("READ_PHONE_STATE", "android.permission.READ_PHONE_STATE");
    ("CALL_PHONE", "android.permission.CALL_PHONE");
    ("READ_CALL_LOG", "android.permission.READ_CALL_LOG");
    ("WRITE_CALL_LOG", "android.permission.WRITE_CALL_LOG");
    ("ADD_VOICEMAIL", "com.android.voicemail.permission.ADD_VOICEMAIL");
    ("USE_SIP", "android.permission.USE_SIP");
    ("PROCESS_OUTGOING_CALLS", "android.permission.PROCESS_OUTGOING_CALLS");
    ("BODY_SENSORS", "android.permission.BODY_SENSORS");
    ("SEND_SMS", "android.permission.SEND_SMS");
    ("RECEIVE_SMS", "android.permission.RECEIVE_SMS");
    ("READ_SMS", "android.permission.READ_SMS");
    ("RECEIVE_WAP_PUSH", "android.permission.RECEIVE_WAP_PUSH");
    ("RECEIVE_MMS", "android.permission.RECEIVE_MMS");
    ("READ_EXTERNAL_STORAGE", "android.permission.READ_EXTERNAL_STORAGE");
    ("WRITE_EXTERNAL_STORAGE", "android.permission.WRITE_EXTERNAL_STORAGE")
  ].

(** Lines 91-103. *)
Definition checkPermission (permission : string) : M nat :=
  new_Promise (λ p,
    native (AP_checkPermission permission) (CheckResult p) (CheckError p)).

(** Lines 109-121. *)
Definition requestPermission (permission : string) : M nat :=
  new_Promise (λ p,
    native (AP_requestPermission permission) (RequestResult p) (RequestError p)).

(** The body of the local [requestPermission] arrow function (lines 134-138). *)
Definition rationale_requestPermission (p : nat) (permission : string) : M unit :=
  q ← requestPermission permission;
  q' ← promise_then q (ThenGranted p);
  _ ← promise_catch q' (CatchErr p);
  mret tt.

(** Lines 132-164; the callbacks it registers are in [call]. *)
Definition requestPermissionWithRationale (permission title message : string) : M nat :=
  new_Promise (λ p,
    native (AP_shouldShowRequestPermissionRationale permission)
           (RationaleResult p permission title message)
           (RationaleError p)).

(** Applying a callback of the source to the arguments of the native layer. *)
Definition call (cl : closure) (args : list value) : M unit :=
  match cl with
  | CheckResult p => resolve p (arg 1 args)
  | CheckError p => reject p (arg 0 args)
  | RequestResult p => resolve p (arg 1 args)
  | RequestError p => reject p (arg 0 args)
  | RequestPermissionThunk p permission => rationale_requestPermission p permission
  | RationaleResult p permission title message =>
      if truthy (arg 1 args) then
        native (DM_showAlert (Some title) message)
               (DialogDismissed p) (RequestPermissionThunk p permission)
      else
        rationale_requestPermission p permission
  | RationaleError p => reject p (arg 0 args)
  | DialogDismissed p =>
      native (DM_showAlert None "Error Requesting Permissions") EmptyObject EmptyObject;;
      reject p VUndefined
  | EmptyObject => mret tt
  end.

(** ** The environment *)

Inductive slot := Cb1 | Cb2.

Record firing := Fire {
  handle : nat;
  which : slot;
  fargs : list value
}.

Definition pick (s : slot) (i : invocation) : closure :=
  match s with Cb1 => i.1.2 | Cb2 => i.2 end.

(** The native layer invokes a callback: the callback runs to completion, then
    the reaction jobs it caused run.  A firing that names no issued call, or an
    argument that is not a function, invokes nothing. *)
Definition deliver (f : firing) : M unit := λ st,
  match calls st !! handle f with
  | Some i =>
      if callable (pick (which f) i) then
        (emit (EvCallback (handle f) (pick (which f) i) (fargs f));;
         call (pick (which f) i) (fargs f);;
         drain) st
      else (tt, st)
  | None => (tt, st)
  end.

Definition run (fs : list firing) (st : machine) : machine :=
  foldl (λ st f, exec (deliver f) st) st fs.

Definition init (catalog : gmap string string) : machine := Machine catalog [] [] [].

(** The state a public operation leaves behind when it returns its promise
    (promise 0 of a fresh machine). *)
Definition started (op : M nat) (catalog : gmap string string) : machine :=
  exec op (init catalog).

(** ** The public operations, as one type *)

Inductive operation :=
| CheckPermission (permission : string)
| RequestPermission (permission : string)
| RequestPermissionWithRationale (permission title message : string).

Definition invoke (o : operation) : M nat :=
  match o with
  | CheckPermission permission => checkPermission permission
  | RequestPermission permission => requestPermission permission
  | RequestPermissionWithRationale permission title message =>
      requestPermissionWithRationale permission title message
  end.

(** * Observations and specification vocabulary

    Everything below this line talks about the model; nothing below is part
    of it. *)

(** ** What the caller and the native layer can see *)

(** The outcomes promise [p] was settled with, in order. *)
Definition settlement_of (p : nat) (e : event) : option outcome :=
  match e with
  | EvSettle q o => if decide (q = p) then Some o else None
  | _ => None
  end.

Definition settlements (p : nat) (st : machine) : list outcome :=
  omap (settlement_of p) (trace st).

(** The state of the returned promise and every settlement it went through. *)
Definition observed (st : machine) : promise_state * list outcome :=
  (state_of st 0, settlements 0 st).

(** The promise returned was settled at most once, and not both ways. *)
Definition at_most_once (st : machine) : Prop :=
  length (settlements 0 st) ≤ 1
  ∧ (∀ o o', EvSettle 0 o ∈ trace st → EvSettle 0 o' ∈ trace st → o = o')
  ∧ (∀ v r, ¬ (EvSettle 0 (Fulfilled v) ∈ trace st ∧ EvSettle 0 (Rejected r) ∈ trace st)).

Definition error_alert : event :=
  EvNative (DM_showAlert None "Error Requesting Permissions") EmptyObject EmptyObject.

(** The answers the native layer gave to call [h], addressed to the only call
    of a direct invocation. *)
Definition replies (h : nat) (fs : list firing) : list firing :=
  omap (λ f, if decide (handle f = h) then Some (Fire 0 (which f) (fargs f)) else None) fs.

(** The single-phase contract in the words of the specification: the result
    fulfils with the boolean the native layer reports, fails with the error
    it reports, and is pending while the native layer has reported nothing.
    [rs] are the firings addressed to the one native call; the first
    decides. *)
Definition single_phase_contract (rs : list firing) : promise_state :=
  match rs with
  | [] => Pending
  | Fire _ Cb1 args :: _ => Settled (Fulfilled (arg 1 args))
  | Fire _ Cb2 args :: _ => Settled (Rejected (arg 0 args))
  end.

(** A callback whose body settles a promise of the operation. *)
Definition decisive (cl : closure) : bool :=
  match cl with
  | CheckResult _ | CheckError _ | RequestResult _ | RequestError _
  | RationaleError _ | DialogDismissed _ => true
  | RequestPermissionThunk _ _ | RationaleResult _ _ _ _ | EmptyObject => false
  end.

(** The native layer has invoked a decisive callback. *)
Definition decided (tr : list event) : Prop :=
  ∃ h cl args, EvCallback h cl args ∈ tr ∧ decisive cl = true.

(** ** Invariants and their vocabulary *)

(** [m] keeps the invariant [I]. *)
Definition preserves {A} (I : machine → Prop) (m : M A) : Prop :=
  ∀ st, I st → I (m st).2.

(** [settle] either does nothing, or it finds the promise pending, records the
    outcome, logs it and schedules the reactions. *)
Inductive settle_spec (p : nat) (o : outcome) (st : machine) : machine → Prop :=
| settle_noop :
    state_of st p ≠ Pending ∨ promises st !! p = None →
    settle_spec p o st st
| settle_fires rs :
    promises st !! p = Some (Cell Pending rs) →
    settle_spec p o st
      (Machine (this_PERMISSIONS st)
               (<[p := Cell (Settled o) []]> (promises st))
               (jobs st ++ (mk_job o <$> rs))
               (trace st ++ [EvSettle p o])).

(** The log of settlements agrees with the heap. *)
Definition coherent (st : machine) : Prop :=
  ∀ p, settlements p st =
       match state_of st p with Pending => [] | Settled o => [o] end.

Definition is_settle (e : event) : Prop :=
  match e with EvSettle _ _ => True | _ => False end.

(** The trace of [st'] extends [tr] by settlements only. *)
Definition settles_after (tr : list event) (st' : machine) : Prop :=
  ∃ l, trace st' = tr ++ l ∧ Forall is_settle l.

(** The events the body of a callback emits itself, when the next free
    promise is [q]. *)
Definition body (cl : closure) (args : list value) (q : nat) : list event :=
  match cl with
  | RequestPermissionThunk p permission =>
      [EvNative (AP_requestPermission permission) (RequestResult q) (RequestError q)]
  | RationaleResult p permission title message =>
      if truthy (arg 1 args) then
        [EvNative (DM_showAlert (Some title) message)
                  (DialogDismissed p) (RequestPermissionThunk p permission)]
      else
        [EvNative (AP_requestPermission permission) (RequestResult q) (RequestError q)]
  | DialogDismissed p => [error_alert]
  | _ => []
  end.

Definition pending_reactions (c : cell) : nat :=
  match pstate c with Pending => length (reactions c) | Settled _ => 0 end.

(** Jobs waiting, plus jobs that settling the pending promises can still
    create. *)
Definition potential (st : machine) : nat :=
  length (jobs st) + sum_list (pending_reactions <$> promises st).

(** Promise [p] has settled. *)
Definition is_settled (p : nat) (st : machine) : Prop := state_of st p ≠ Pending.

(** The three promises behind one native request, while the outer promise
    is pending. *)
Definition linked (st : machine) (q : nat) : Prop :=
  q ≠ 0
  ∧ promises st !! q = Some (Cell Pending [Reaction (Some (ThenGranted 0)) None (S q)])
  ∧ promises st !! S q
    = Some (Cell Pending [Reaction None (Some (CatchErr 0)) (S (S q))]).

(** Between deliveries the queue is empty; while the outer promise is pending
    nothing decisive has happened and every native request issued is linked
    to it; once it has settled something decisive has happened. *)
Definition chained (st : machine) : Prop :=
  jobs st = []
  ∧ match state_of st 0 with
    | Pending =>
        is_Some (promises st !! 0) ∧ ¬ decided (trace st)
        ∧ ∀ c q cb2, EvNative c (RequestResult q) cb2 ∈ trace st → linked st q
    | Settled _ => decided (trace st)
    end.

(** ** Well-behaved native layers *)

(** Does [e] record an answer to call [h]? *)
Definition answers (h : nat) (e : event) : bool :=
  match e with
  | EvCallback h' _ _ => bool_decide (h' = h)
  | _ => false
  end.

(** Has call [h] been answered? *)
Definition answered (st : machine) (h : nat) : bool := existsb (answers h) (trace st).

(** May the native layer deliver [f] now? *)
Definition answerable (st : machine) (f : firing) : bool :=
  match calls st !! handle f with
  | Some i => negb (answered st (handle f)) && callable (pick (which f) i)
  | None => false
  end.

(** Modelled from the spec: the native modules [AndroidPermissions] and
    [DialogManagerAndroid] and the bridge that carries their callbacks are not
    in the source file.  The specification gives each native method a callback
    pair and has it answer through the one callback or the other ("the
    failure callback fires instead"; the dialog's "dismiss path" or its
    "proceed path"), and its state machine per call has no way back.
    [well_behaved st fs] says that of the firings [fs], delivered in order
    from [st]: each one answers a call that has been issued and not answered
    before, through a callback that is a function. *)
Fixpoint well_behaved (st : machine) (fs : list firing) : bool :=
  match fs with
  | [] => true
  | f :: fs' => answerable st f && well_behaved (exec (deliver f) st) fs'
  end.

(** ** The states and scripts of [requestPermissionWithRationale] *)

Section RationaleStates.
Context (catalog : gmap string string) (id title message : string).

(** The state in which the method returns: the query is in flight. *)
Definition awaiting_check : machine :=
  started (requestPermissionWithRationale id title message) catalog.

(** The two branches of the query's success callback (lines 143-157). *)
Definition awaiting_dialog (args : list value) : machine :=
  exec (emit (EvCallback 0 (RationaleResult 0 id title message) args);;
        native (DM_showAlert (Some title) message)
               (DialogDismissed 0) (RequestPermissionThunk 0 id);;
        drain)
       awaiting_check.

Definition direct_request (args : list value) : machine :=
  exec (emit (EvCallback 0 (RationaleResult 0 id title message) args);;
        rationale_requestPermission 0 id;;
        drain)
       awaiting_check.

End RationaleStates.

(** The shapes a well-behaved interaction can take: the state machine
    Start → AwaitingRationaleCheck → (DirectRequest | AwaitingDialog) →
    AwaitingNativeRequest → settled. *)
Inductive request_script (h : nat) : list firing → Prop :=
| request_unanswered : request_script h []
| request_answered sl args : request_script h [Fire h sl args].

Inductive dialog_script : list firing → Prop :=
| dlg_open : dialog_script []
| dlg_dismissed args : dialog_script [Fire 1 Cb1 args]
| dlg_proceeded args tail :
    request_script 2 tail → dialog_script (Fire 1 Cb2 args :: tail).

Inductive script : list firing → Prop :=
| script_waiting : script []
| script_query_failed args : script [Fire 0 Cb2 args]
| script_direct args tail :
    truthy (arg 1 args) = false → request_script 1 tail →
    script (Fire 0 Cb1 args :: tail)
| script_dialog args tail :
    truthy (arg 1 args) = true → dialog_script tail →
    script (Fire 0 Cb1 args :: tail).

(** ** Why the native request is issued *)

Section Phase2Vocabulary.
Context (id title message : string).

(** The query's success callback was invoked with a [shouldShow] that the
    test [if (shouldShow)] reads as [b]. *)
Definition query_succeeded (tr : list event) (b : bool) : Prop :=
  ∃ h args,
    EvCallback h (RationaleResult 0 id title message) args ∈ tr
    ∧ truthy (arg 1 args) = b.

(** The dialog's proceed callback, the local [requestPermission], was
    invoked by the native layer. *)
Definition dialog_proceeded (tr : list event) : Prop :=
  ∃ h args, EvCallback h (RequestPermissionThunk 0 id) args ∈ tr.

(** The native [requestPermission(id)] was called. *)
Definition request_issued (tr : list event) : Prop :=
  ∃ cb1 cb2, EvNative (AP_requestPermission id) cb1 cb2 ∈ tr.

Definition phase2_condition (tr : list event) : Prop :=
  query_succeeded tr false ∨ (query_succeeded tr true ∧ dialog_proceeded tr).

(** Each event of the trace has its reason earlier in the trace. *)
Definition justified (tr : list event) (e : event) : Prop :=
  match e with
  | EvNative (AP_shouldShowRequestPermissionRationale p) cb1 cb2 =>
      p = id ∧ cb1 = RationaleResult 0 id title message ∧ cb2 = RationaleError 0
  | EvNative (DM_showAlert (Some t) m) cb1 cb2 =>
      cb1 = DialogDismissed 0 ∧ cb2 = RequestPermissionThunk 0 id
      ∧ query_succeeded tr true
  | EvNative (DM_showAlert None m) cb1 cb2 =>
      cb1 = EmptyObject ∧ cb2 = EmptyObject
  | EvNative (AP_requestPermission p) cb1 cb2 =>
      p = id ∧ (∃ q, cb1 = RequestResult q ∧ cb2 = RequestError q)
      ∧ phase2_condition tr
  | EvNative (AP_checkPermission p) cb1 cb2 => False
  | EvCallback h cl args =>
      match cl with
      | RequestPermissionThunk p permission =>
          p = 0 ∧ permission = id ∧ query_succeeded tr true
      | RationaleResult p permission t m =>
          p = 0 ∧ permission = id ∧ t = title ∧ m = message
      | _ => True
      end
  | EvSettle p o => True
  end.

Definition causal (tr : list event) : Prop :=
  Forall (justified tr) tr
  ∧ (query_succeeded tr false → request_issued tr)
  ∧ (dialog_proceeded tr → request_issued tr).

End Phase2Vocabulary.

(** ** Invocations do not depend on their surroundings

    An operation may be invoked at any time: in a machine that already holds
    other promises and other native calls, with any contents of the catalog,
    for any identifier.  [embeds] relates the run of an invocation on a fresh
    machine to its run inside an ambient machine [amb]: the same heap, jobs
    and trace, relocated past what [amb] holds, with every identifier renamed
    by [r]. *)

Section RelocationMaps.
Context (np nh : nat) (r : string → string).

Definition move_handler (h : handler) : handler :=
  match h with
  | ThenGranted outer => ThenGranted (np + outer)
  | CatchErr outer => CatchErr (np + outer)
  end.

Definition move_reaction (x : reaction) : reaction :=
  Reaction (move_handler <$> on_fulfilled x) (move_handler <$> on_rejected x)
           (np + derived x).

Definition move_cell (c : cell) : cell :=
  Cell (pstate c) (move_reaction <$> reactions c).

Definition move_job (j : job) : job :=
  Job (move_handler <$> job_handler j) (job_arg j) (np + job_derived j).

Definition move_closure (cl : closure) : closure :=
  match cl with
  | CheckResult p => CheckResult (np + p)
  | CheckError p => CheckError (np + p)
  | RequestResult p => RequestResult (np + p)
  | RequestError p => RequestError (np + p)
  | RequestPermissionThunk p permission => RequestPermissionThunk (np + p) (r permission)
  | RationaleResult p permission title message =>
      RationaleResult (np + p) (r permission) title message
  | RationaleError p => RationaleError (np + p)
  | DialogDismissed p => DialogDismissed (np + p)
  | EmptyObject => EmptyObject
  end.

Definition move_call (c : native_call) : native_call :=
  match c with
  | AP_checkPermission permission => AP_checkPermission (r permission)
  | AP_requestPermission permission => AP_requestPermission (r permission)
  | AP_shouldShowRequestPermissionRationale permission =>
      AP_shouldShowRequestPermissionRationale (r permission)
  | DM_showAlert title message => DM_showAlert title message
  end.

Definition move_invocation (i : invocation) : invocation :=
  (move_call i.1.1, move_closure i.1.2, move_closure i.2).

Definition move_event (e : event) : event :=
  match e with
  | EvNative c cb1 cb2 => EvNative (move_call c) (move_closure cb1) (move_closure cb2)
  | EvCallback h cl args => EvCallback (nh + h) (move_closure cl) args
  | EvSettle p o => EvSettle (np + p) o
  end.

Definition move_firing (f : firing) : firing :=
  Fire (nh + handle f) (which f) (fargs f).

Context (amb : machine).

Record embeds (small big : machine) : Prop := Embeds {
  emb_catalog : this_PERMISSIONS big = this_PERMISSIONS amb;
  emb_promises : promises big = promises amb ++ (move_cell <$> promises small);
  emb_jobs : jobs big = move_job <$> jobs small;
  emb_trace : trace big = trace amb ++ (move_event <$> trace small)
}.

(** [m'] does inside the ambient machine what [m] does on its own. *)
Definition sim {A} (RA : A → A → Prop) (m m' : M A) : Prop :=
  ∀ st st', embeds st st' → RA (m st).1 (m' st').1 ∧ embeds (m st).2 (m' st').2.

Definition moved (p p' : nat) : Prop := p' = np + p.

End RelocationMaps.

Definition rename_operation (r : string → string) (o : operation) : operation :=
  match o with
  | CheckPermission permission => CheckPermission (r permission)
  | RequestPermission permission => RequestPermission (r permission)
  | RequestPermissionWithRationale permission title message =>
      RequestPermissionWithRationale (r permission) title message
  end.

(** The same operation, for another permission identifier. *)
Definition with_permission (id : string) (o : operation) : operation :=
  rename_operation (λ _, id) o.

(** Renaming the identifiers in an event, nothing else. *)
Definition rename_event (r : string → string) : event → event := move_event 0 0 r.

(** Firing [k] answers the [k]-th native call of the invocation made in
    [amb]. *)
Definition answer_in (amb : machine) (fs : list firing) : list firing :=
  move_firing (length (calls amb)) <$> fs.

(** What an invocation made in [amb] has added to the machine. *)
Definition issued_since (amb st : machine) : list native_call :=
  drop (length (calls amb)) (native_calls st).

Definition trace_since (amb st : machine) : list event :=
  drop (length (trace amb)) (trace st).

Definition settlements_since (amb st : machine) (p : nat) : list outcome :=
  omap (settlement_of p) (trace_since amb st).

(** Two machines to invoke in: a fresh one, and one where an earlier
    [checkPermission] has settled and an earlier rationale dialog is open. *)
Definition fresh_machine : machine := init PERMISSIONS.

Definition busy_machine : machine :=
  run [Fire 1 Cb1 [VString "android.permission.READ_CONTACTS"; VBool true];
       Fire 0 Cb1 [VString "android.permission.CAMERA"; VBool true]]
      (exec (requestPermissionWithRationale "android.permission.READ_CONTACTS" "Contacts" "Why")
            (exec (checkPermission "android.permission.CAMERA") (init ∅))).

(** ** The catalog's naming scheme *)

(** The identifier the catalog gives to [name]: the platform's prefix and the
    name itself; one permission lives in another package. *)
Definition scheme (name : string) : string :=
  String.append
    (if decide (name = "ADD_VOICEMAIL")
     then "com.android.voicemail.permission."
     else "android.permission.")
    name.

(** ** Counting what happened *)

(** How many events of a trace are of a given kind. *)
Definition count (kind : event → bool) (tr : list event) : nat :=
  length (List.filter kind tr).

Definition is_query (e : event) : bool :=
  match e with
  | EvNative (AP_shouldShowRequestPermissionRationale _) _ _ => true
  | _ => false
  end.

Definition is_request (e : event) : bool :=
  match e with EvNative (AP_requestPermission _) _ _ => true | _ => false end.

Definition is_rationale_dialog (e : event) : bool :=
  match e with EvNative (DM_showAlert (Some _) _) _ _ => true | _ => false end.

Definition is_error_alert (e : event) : bool :=
  match e with EvNative (DM_showAlert None _) _ _ => true | _ => false end.

(** The query's success callback ran, and [if (shouldShow)] read [b]. *)
Definition is_query_result (b : bool) (e : event) : bool :=
  match e with
  | EvCallback _ (RationaleResult _ _ _ _) args => bool_decide (truthy (arg 1 args) = b)
  | _ => false
  end.

(** The local [requestPermission] ran as the dialog's second callback. *)
Definition is_proceed (e : event) : bool :=
  match e with EvCallback _ (RequestPermissionThunk _ _) _ => true | _ => false end.

(** The dialog's first callback ran. *)
Definition is_dismissal (e : event) : bool :=
  match e with EvCallback _ (DialogDismissed _) _ => true | _ => false end.

(** The native calls [requestPermissionWithRationale] can make after the
    query. *)
Definition rationale_calls (id title message : string) : list native_call :=
  [ DM_showAlert (Some title) message;
    DM_showAlert None "Error Requesting Permissions";
    AP_requestPermission id ].

(** The sequences of native calls [requestPermissionWithRationale] can make
    when every call is answered at most once. *)
Definition rationale_call_sequences (id title message : string) : list (list native_call) :=
  let query := AP_shouldShowRequestPermissionRationale id in
  let dialog := DM_showAlert (Some title) message in
  let alert := DM_showAlert None "Error Requesting Permissions" in
  let request := AP_requestPermission id in
  [ [query];
    [query; request];
    [query; dialog];
    [query; dialog; alert];
    [query; dialog; request] ].

(** ** The chain behind a native request

    [this.requestPermission(permission).then(...).catch(...)] allocates three
    promises in a row: [q] for [this.requestPermission], [S q] for [.then],
    [S (S q)] for [.catch]. *)

(** What [.then((granted) => resolve(granted))] makes of the outcome of the
    promise it is called on: a fulfilment becomes what the handler returns,
    [undefined]; a rejection passes through. *)
Definition passed (o : outcome) : outcome :=
  match o with Fulfilled _ => Fulfilled VUndefined | Rejected e => Rejected e end.

(** The chain behind request promise [q] is waiting for the native answer. *)
Definition waiting (st : machine) (q : nat) : Prop :=
  linked st q ∧ promises st !! S (S q) = Some (Cell Pending []).

(** The chain behind request promise [q] has run to its end; the returned
    promise has settled by then. *)
Definition chain_done (st : machine) (q : nat) : Prop :=
  ∃ o, state_of st q = Settled o
       ∧ state_of st (S q) = Settled (passed o)
       ∧ state_of st (S (S q)) = Settled (Fulfilled VUndefined)
       ∧ state_of st 0 ≠ Pending.

(** The heap and the trace after the chain behind [q] has run, when the
    state of the returned promise was [s0]: [q] settled with [o], the returned
    promise settled with [o] if it was pending, the promise of [.then] settled
    with [passed o], the promise of [.catch] fulfilled with [undefined]. *)
Definition chain_heap (ps : list cell) (q : nat) (s0 : promise_state) (o : outcome) :
    list cell :=
  <[S (S q) := Cell (Settled (Fulfilled VUndefined)) []]>
    (<[S q := Cell (Settled (passed o)) []]>
       (<[0 := Cell (match s0 with Pending => Settled o | _ => s0 end) []]>
          (<[q := Cell (Settled o) []]> ps))).

Definition chain_trace (q : nat) (s0 : promise_state) (o : outcome) : list event :=
  let outer := match s0 with Pending => [EvSettle 0 o] | _ => [] end in
  match o with
  | Fulfilled _ =>
      EvSettle q o :: outer
        ++ [EvSettle (S q) (passed o); EvSettle (S (S q)) (Fulfilled VUndefined)]
  | Rejected _ =>
      EvSettle q o :: EvSettle (S q) (passed o) :: outer
        ++ [EvSettle (S (S q)) (Fulfilled VUndefined)]
  end.

(** ** The first decision *)

(** What a callback of the source settles the promise of its operation with,
    if it settles it: [resolve(result)], [reject(error)], [reject()]. *)
Definition verdict (cl : closure) (args : list value) : option outcome :=
  match cl with
  | CheckResult _ | RequestResult _ => Some (Fulfilled (arg 1 args))
  | CheckError _ | RequestError _ | RationaleError _ => Some (Rejected (arg 0 args))
  | DialogDismissed _ => Some (Rejected VUndefined)
  | RequestPermissionThunk _ _ | RationaleResult _ _ _ _ | EmptyObject => None
  end.

(** The verdict of the first settling callback the native layer invoked. *)
Fixpoint first_decision (tr : list event) : option outcome :=
  match tr with
  | [] => None
  | EvCallback _ cl args :: tr' =>
      match verdict cl args with
      | Some o => Some o
      | None => first_decision tr'
      end
  | _ :: tr' => first_decision tr'
  end.

(** Between deliveries, in a run of [requestPermissionWithRationale]: the
    queue is empty; nobody reacts to the returned promise; the promises are
    the returned one and three for every native request issued, whose chain
    is waiting or done; the returned promise is as the first settling
    callback left it. *)
Definition orderly (st : machine) : Prop :=
  jobs st = []
  ∧ (∃ s0, promises st !! 0 = Some (Cell s0 []))
  ∧ (∃ n, length (promises st) = 3 * n + 1)
  ∧ (∀ c q cb2, EvNative c (RequestResult q) cb2 ∈ trace st →
       (∃ k, q = 3 * k + 1) ∧ q + 2 < length (promises st)
       ∧ (waiting st q ∨ chain_done st q))
  ∧ (∀ p, 0 < p < length (promises st) →
       ∃ c q cb2, EvNative c (RequestResult q) cb2 ∈ trace st ∧ q ≤ p ≤ q + 2)
  ∧ state_of st 0 = from_option Settled Pending (first_decision (trace st)).

(** ** Answers *)

(** Every callback the trace records was registered with the call it
    answers. *)
Definition callbacks_registered (st : machine) : Prop :=
  ∀ h cl args, EvCallback h cl args ∈ trace st →
               ∃ i sl, calls st !! h = Some i ∧ cl = pick sl i.

(** Every native call that was given functions as callbacks has been
    answered. *)
Definition all_answered (st : machine) : Prop :=
  ∀ h c cb1 cb2, calls st !! h = Some (c, cb1, cb2) → callable cb1 = true →
                 answered st h = true.

(** ** Several operations at once *)

(** [checkPermission] and [requestPermission]: one native call each. *)
Definition single_phase (o : operation) : bool :=
  match o with
  | CheckPermission _ | RequestPermission _ => true
  | RequestPermissionWithRationale _ _ _ => false
  end.

(** Several operations invoked one after the other, before any answer. *)
Definition invoke_all (os : list operation) (st : machine) : machine :=
  foldl (λ st o, exec (invoke o) st) st os.

(** The native call an operation makes when its promise is [k]. *)
Definition call_of (k : nat) (o : operation) : invocation :=
  match o with
  | CheckPermission id => (AP_checkPermission id, CheckResult k, CheckError k)
  | RequestPermission id => (AP_requestPermission id, RequestResult k, RequestError k)
  | RequestPermissionWithRationale id title message =>
      (AP_shouldShowRequestPermissionRationale id,
       RationaleResult k id title message, RationaleError k)
  end.

(** [n] single-phase operations in flight, [fs] delivered: promise [k] is
    what the answers to call [k] made it, nobody reacts to it, and the calls
    are the [n] first ones. *)
Definition in_flight (os : list operation) (fs : list firing) (st : machine) : Prop :=
  jobs st = []
  ∧ calls st = imap call_of os
  ∧ length (promises st) = length os
  ∧ ∀ k, k < length os →
         promises st !! k = Some (Cell (single_phase_contract (replies k fs)) []).

(** * Reasoning about monadic code *)

Lemma preserves_ret {A} (I : machine → Prop) (x : A) : preserves I (mret x).
Proof. intros st H. exact H. Qed.

Lemma preserves_bind {A B} (I : machine → Prop) (m : M A) (f : A → M B) :
  preserves I m → (∀ a, preserves I (f a)) → preserves I (m ≫= f).
Proof.
  intros Hm Hf st H. unfold mbind, M_bind.
  specialize (Hm st H). destruct (m st) as [a st']. by apply Hf.
Qed.

Lemma exec_bind {A B} (m : M A) (f : A → M B) st :
  exec (m ≫= f) st = exec (f (m st).1) (m st).2.
Proof. unfold exec, mbind, M_bind. by destruct (m st). Qed.

Lemma run_app fs gs st : run (fs ++ gs) st = run gs (run fs st).
Proof. unfold run. apply foldl_app. Qed.

Lemma run_cons f fs st : run (f :: fs) st = run fs (exec (deliver f) st).
Proof. reflexivity. Qed.

Lemma run_snoc fs f st : run (fs ++ [f]) st = exec (deliver f) (run fs st).
Proof. by rewrite run_app. Qed.

(** ** Invariants of the promise machinery

    An invariant kept by the four heap primitives is kept by the job queue
    and by [then]/[catch]. *)
Section HeapInvariant.
Context (I : machine → Prop).
Hypothesis I_new_promise : preserves I new_promise.
Hypothesis I_settle : ∀ p o, preserves I (settle p o).
Hypothesis I_add_reaction : ∀ p r, preserves I (add_reaction p r).
Hypothesis I_pop : ∀ st js, I st → I (with_jobs st js).

Ltac heap_solve :=
  repeat first
    [ assumption
    | apply preserves_ret
    | match goal with H : _ |- _ => apply H end
    | apply preserves_bind; [ | intros ? ] ].

Lemma preserves_promise_react p onF onR : preserves I (promise_react p onF onR).
Proof. unfold promise_react. heap_solve. Qed.

Lemma preserves_call_handler h x : preserves I (call_handler h x).
Proof. destruct h; unfold call_handler, resolve, reject; heap_solve. Qed.

Lemma preserves_run_job j : preserves I (run_job j).
Proof.
  pose proof preserves_call_handler.
  unfold run_job, resolve. destruct (job_handler j); heap_solve.
Qed.

Lemma preserves_run_jobs n : preserves I (run_jobs n).
Proof.
  induction n as [ | n IH ]; intros st H; simpl.
  - by destruct (jobs st).
  - destruct (jobs st) as [ | j js ]; [ done | ].
    apply (preserves_bind I (run_job j) (λ _, run_jobs n));
      auto using preserves_run_job.
Qed.

Lemma preserves_drain : preserves I drain.
Proof. intros st H. by apply preserves_run_jobs. Qed.

(** If the invariant also survives the two kinds of event the program itself
    emits, every operation and every callback keeps it. *)
Hypothesis I_native : ∀ c cb1 cb2, preserves I (emit (EvNative c cb1 cb2)).
Hypothesis I_callback : ∀ h cl args, preserves I (emit (EvCallback h cl args)).

Lemma preserves_new_Promise ex : (∀ p, preserves I (ex p)) → preserves I (new_Promise ex).
Proof. intros H. unfold new_Promise. heap_solve. Qed.

Lemma preserves_checkPermission id : preserves I (checkPermission id).
Proof. apply preserves_new_Promise. intros p. apply I_native. Qed.

Lemma preserves_requestPermission id : preserves I (requestPermission id).
Proof. apply preserves_new_Promise. intros p. apply I_native. Qed.

Lemma preserves_requestPermissionWithRationale id t m :
  preserves I (requestPermissionWithRationale id t m).
Proof. apply preserves_new_Promise. intros p. apply I_native. Qed.

Lemma preserves_rationale_requestPermission p id :
  preserves I (rationale_requestPermission p id).
Proof.
  pose proof preserves_requestPermission. pose proof preserves_promise_react.
  unfold rationale_requestPermission, promise_then, promise_catch. heap_solve.
Qed.

Lemma preserves_call cl args : preserves I (call cl args).
Proof.
  pose proof preserves_rationale_requestPermission.
  destruct cl; simpl; unfold resolve, reject, native;
    try case_match; heap_solve.
Qed.

Lemma preserves_deliver f : preserves I (deliver f).
Proof.
  pose proof preserves_call. pose proof preserves_drain.
  intros st Hst. unfold deliver.
  destruct (calls st !! handle f) as [ i | ]; [ | done ].
  destruct (callable (pick (which f) i)); [ | done ].
  revert st Hst. heap_solve.
Qed.

Lemma preserves_run fs st : I st → I (run fs st).
Proof.
  revert st. induction fs as [ | f fs IH ]; intros st H; [ done | ].
  rewrite run_cons. apply IH. by apply preserves_deliver.
Qed.
End HeapInvariant.

(** ** What the primitives do to the observations *)

Lemma state_of_new_promise st p : state_of (new_promise st).2 p = state_of st p.
Proof.
  unfold state_of, new_promise; simpl.
  destruct (decide (p < length (promises st))) as [ Hlt | Hge ].
  - by rewrite lookup_app_l.
  - rewrite lookup_app_r by lia. rewrite (lookup_ge_None_2 (promises st)) by lia.
    by destruct (p - length (promises st)) as [ | [ | k ] ].
Qed.

Lemma state_of_add_reaction q r st p : state_of (add_reaction q r st).2 p = state_of st p.
Proof.
  unfold state_of, add_reaction.
  destruct (promises st !! q) as [ [ [ | o ] rs ] | ] eqn:Hq; simpl; try done.
  destruct (decide (q = p)) as [ -> | Hne ].
  - rewrite list_lookup_insert_eq by (by eapply lookup_lt_Some). by rewrite Hq.
  - by rewrite list_lookup_insert_ne.
Qed.

Lemma trace_add_reaction q r st : trace (add_reaction q r st).2 = trace st.
Proof.
  unfold add_reaction. by destruct (promises st !! q) as [ [ [ | o ] rs ] | ].
Qed.

Lemma settle_cases p o st : settle_spec p o st (settle p o st).2.
Proof.
  unfold settle.
  destruct (promises st !! p) as [ [ [ | o' ] rs ] | ] eqn:Hp; simpl.
  - exact (settle_fires p o st rs Hp).
  - apply settle_noop. left. unfold state_of. by rewrite Hp.
  - apply settle_noop. by right.
Qed.

Lemma state_of_insert st p q c :
  q < length (promises st) →
  state_of (with_promises st (<[q := c]> (promises st))) p =
  if decide (q = p) then pstate c else state_of st p.
Proof.
  intros Hq. unfold state_of; simpl. case_decide as Hd.
  - subst. by rewrite list_lookup_insert_eq.
  - by rewrite list_lookup_insert_ne.
Qed.

(** ** First invariant: the instance field [PERMISSIONS] is never written *)

Lemma catalog_kept c fs st : this_PERMISSIONS st = c → this_PERMISSIONS (run fs st) = c.
Proof.
  apply (preserves_run (λ s, this_PERMISSIONS s = c)); unfold preserves; try done.
  - intros p o s Hs. by destruct (settle_cases p o s).
  - intros p r s Hs. unfold add_reaction.
    by destruct (promises s !! p) as [ [ [ | o ] rs ] | ].
Qed.

(** ** Second invariant: a settled promise stays as it is *)

Lemma settled_kept p o fs st :
  state_of st p = Settled o → state_of (run fs st) p = Settled o.
Proof.
  apply (preserves_run (λ s, state_of s p = Settled o)); unfold preserves; try done.
  - intros s Hs. by rewrite state_of_new_promise.
  - intros q o' s Hs. destruct (settle_cases q o' s) as [ | rs Hq ]; [ done | ].
    unfold state_of in *; simpl. destruct (decide (q = p)) as [ -> | Hne ].
    + by rewrite Hq in Hs.
    + by rewrite list_lookup_insert_ne.
  - intros q r s Hs. by rewrite state_of_add_reaction.
Qed.

(** ** Third invariant: the log of settlements agrees with the heap *)

Lemma settlements_snoc p st e :
  settlements p (with_trace st (trace st ++ [e])) =
  settlements p st ++ from_option (λ o, [o]) [] (settlement_of p e).
Proof.
  unfold settlements; simpl. rewrite omap_app; simpl.
  by destruct (settlement_of p e).
Qed.

Lemma coherent_kept fs st : coherent st → coherent (run fs st).
Proof.
  apply (preserves_run coherent); unfold preserves.
  - intros s Hs p. rewrite state_of_new_promise. apply Hs.
  - intros q o s Hs p. destruct (settle_cases q o s) as [ | rs Hq ]; [ apply Hs | ].
    specialize (Hs p). unfold settlements, state_of in *; simpl.
    rewrite omap_app, Hs; simpl. destruct (decide (q = p)) as [ -> | Hne ].
    + rewrite Hq; simpl.
      rewrite list_lookup_insert_eq by (by eapply lookup_lt_Some). done.
    + rewrite list_lookup_insert_ne by done. by rewrite app_nil_r.
  - intros q r s Hs p. rewrite state_of_add_reaction.
    unfold settlements. rewrite trace_add_reaction. apply Hs.
  - intros s js Hs. exact Hs.
  - intros c cb1 cb2 s Hs p. unfold emit; simpl.
    rewrite settlements_snoc; simpl. rewrite app_nil_r. apply Hs.
  - intros h cl args s Hs p. unfold emit; simpl.
    rewrite settlements_snoc; simpl. rewrite app_nil_r. apply Hs.
Qed.

Lemma coherent_started_check id c : coherent (started (checkPermission id) c).
Proof. by intros [ | [ | p ] ]. Qed.

Lemma coherent_started_request id c : coherent (started (requestPermission id) c).
Proof. by intros [ | [ | p ] ]. Qed.

Lemma coherent_started_rationale id t m c :
  coherent (started (requestPermissionWithRationale id t m) c).
Proof. by intros [ | [ | p ] ]. Qed.

(** A promise that has settled has exactly that one settlement in the log,
    whatever the native layer does next. *)
Lemma settled_for_good p o fs st :
  coherent st → state_of st p = Settled o →
  state_of (run fs st) p = Settled o ∧ settlements p (run fs st) = [o].
Proof.
  intros Hc Hp. pose proof (settled_kept p o fs st Hp) as Hs.
  split; [ done | ]. rewrite (coherent_kept fs st Hc p). by rewrite Hs.
Qed.

(** * The catalog *)

Lemma PERMISSIONS_size : size PERMISSIONS = 24.
Proof. by vm_compute. Qed.

(** * [checkPermission] and [requestPermission] *)

Section SinglePhase.
Context (catalog : gmap string string) (id : string).

Lemma checkPermission_issues :
  trace (started (checkPermission id) catalog) =
  [EvNative (AP_checkPermission id) (CheckResult 0) (CheckError 0)].
Proof. reflexivity. Qed.

Lemma requestPermission_issues :
  trace (started (requestPermission id) catalog) =
  [EvNative (AP_requestPermission id) (RequestResult 0) (RequestError 0)].
Proof. reflexivity. Qed.

Lemma check_success args :
  state_of (exec (deliver (Fire 0 Cb1 args)) (started (checkPermission id) catalog)) 0
  = Settled (Fulfilled (arg 1 args)).
Proof. reflexivity. Qed.

Lemma check_failure args :
  state_of (exec (deliver (Fire 0 Cb2 args)) (started (checkPermission id) catalog)) 0
  = Settled (Rejected (arg 0 args)).
Proof. reflexivity. Qed.

Lemma request_success args :
  state_of (exec (deliver (Fire 0 Cb1 args)) (started (requestPermission id) catalog)) 0
  = Settled (Fulfilled (arg 1 args)).
Proof. reflexivity. Qed.

Lemma request_failure args :
  state_of (exec (deliver (Fire 0 Cb2 args)) (started (requestPermission id) catalog)) 0
  = Settled (Rejected (arg 0 args)).
Proof. reflexivity. Qed.
End SinglePhase.

(** * Well-behaved interactions with [requestPermissionWithRationale] *)

Lemma well_behaved_cons st f fs :
  well_behaved st (f :: fs) = true →
  answerable st f = true ∧ well_behaved (exec (deliver f) st) fs = true.
Proof. simpl. intros H. by apply andb_true_iff in H. Qed.

Section Rationale.
Context (catalog : gmap string string) (id title message : string).
Local Abbreviation awaiting_check := (awaiting_check catalog id title message).
Local Abbreviation awaiting_dialog := (awaiting_dialog catalog id title message).
Local Abbreviation direct_request := (direct_request catalog id title message).

Lemma deliver_query_result args :
  exec (deliver (Fire 0 Cb1 args)) awaiting_check =
  if truthy (arg 1 args) then awaiting_dialog args else direct_request args.
Proof.
  destruct args as [ | a0 [ | [ | [ | ] | [ | ch s ] ] args ] ]; reflexivity.
Qed.

Ltac next_firing H :=
  match type of H with
  | well_behaved _ ?fs = true =>
      let h := fresh "h" in
      let sl := fresh "sl" in
      let a := fresh "args" in
      let Ha := fresh "Ha" in
      destruct fs as [ | [h sl a] ? ];
      [ | apply well_behaved_cons in H as [Ha H];
          destruct h as [ | [ | [ | h ] ] ]; destruct sl;
          try (vm_compute in Ha; discriminate Ha); clear Ha ]
  end.

Lemma well_behaved_script fs :
  well_behaved awaiting_check fs = true → script fs.
Proof.
  intros H. next_firing H; [ constructor | | ].
  - rewrite deliver_query_result in H.
    destruct (truthy (arg 1 args)) eqn:Ht.
    + apply script_dialog; [ done | ].
      next_firing H; [ constructor | | ].
      * next_firing H. constructor.
      * apply dlg_proceeded. next_firing H; [ constructor | | ].
        -- next_firing H. constructor.
        -- next_firing H. constructor.
    + apply script_direct; [ done | ].
      next_firing H; [ constructor | | ].
      * next_firing H. constructor.
      * next_firing H. constructor.
  - next_firing H. constructor.
Qed.
End Rationale.

(** Membership in a list written out, and in one that can be computed. *)
Ltac elem_cases H :=
  repeat match type of H with
         | _ ∈ [] => by apply elem_of_nil in H
         | _ ∈ _ :: _ => apply elem_of_cons in H as [ H | H ]; [ simplify_eq | ]
         end.

Ltac elem_inv H :=
  match type of H with
  | ?x ∈ ?l => let l' := eval vm_compute in l in change (x ∈ l') in H
  end;
  elem_cases H.

Ltac elem_search :=
  repeat first [ apply list_elem_of_here | apply list_elem_of_further ].

(** The final state of a well-behaved interaction, case by case. *)
Ltac by_script H Ht :=
  apply well_behaved_script in H;
  inversion H as [ | ? | ? ? Ht [ | [ | ] ? ] | ? ? Ht [ | ? | ? ? [ | [ | ] ? ] ] ];
  subst; clear H;
  rewrite ?run_cons, ?deliver_query_result, ?Ht.

Lemma script_well_behaved catalog id title message fs :
  script fs → well_behaved (awaiting_check catalog id title message) fs = true.
Proof.
  intros H.
  inversion H as [ | ? | ? ? Ht [ | [ | ] ? ] | ? ? Ht [ | ? | ? ? [ | [ | ] ? ] ] ];
    subst; clear H; try reflexivity;
    unfold well_behaved; fold well_behaved;
    rewrite ?deliver_query_result, ?Ht; reflexivity.
Qed.

(** A native layer that invokes both callbacks of the dialog is not
    well-behaved.  The machine shows what the source does then: the request
    has been issued when the dismissal arrives, and the dismissal rejects the
    promise before the request is answered. *)
Remark dialog_answered_twice :
  let fs := [Fire 0 Cb1 [VString "android.permission.CAMERA"; VBool true];
             Fire 1 Cb2 [];
             Fire 1 Cb1 []] in
  let st := run fs (awaiting_check PERMISSIONS "android.permission.CAMERA" "T" "M") in
  well_behaved (awaiting_check PERMISSIONS "android.permission.CAMERA" "T" "M") fs = false
  ∧ state_of st 0 = Settled (Rejected VUndefined)
  ∧ AP_requestPermission "android.permission.CAMERA" ∈ native_calls st.
Proof. split_and!; [ reflexivity | reflexivity | vm_compute; elem_search ]. Qed.

(** * What a delivery appends to the trace *)

Lemma settles_after_refl st : settles_after (trace st) st.
Proof. exists []. by rewrite app_nil_r. Qed.

Lemma settles_after_new_promise tr : preserves (settles_after tr) new_promise.
Proof. intros st H. exact H. Qed.

Lemma settles_after_settle tr p o : preserves (settles_after tr) (settle p o).
Proof.
  intros st [ l [ Hl Hs ] ]. destruct (settle_cases p o st) as [ | rs Hq ].
  - by exists l.
  - exists (l ++ [EvSettle p o]); simpl. rewrite Hl, app_assoc. split; [ done | ].
    apply Forall_app. split; [ done | ]. by repeat constructor.
Qed.

Lemma settles_after_add_reaction tr p r : preserves (settles_after tr) (add_reaction p r).
Proof.
  intros st H. unfold settles_after. by rewrite trace_add_reaction.
Qed.

Lemma settles_after_drain tr : preserves (settles_after tr) drain.
Proof.
  apply preserves_drain;
    auto using settles_after_new_promise, settles_after_settle.
Qed.

Lemma settles_after_promise_react tr p onF onR :
  preserves (settles_after tr) (promise_react p onF onR).
Proof.
  apply preserves_promise_react;
    auto using settles_after_new_promise, settles_after_add_reaction.
Qed.

Lemma trace_promise_react p onF onR st :
  trace (promise_react p onF onR st).2 = trace st.
Proof.
  unfold promise_react, mbind, M_bind.
  destruct (new_promise st) as [ d st1 ] eqn:E1.
  pose proof (trace_add_reaction p (Reaction onF onR d) st1) as E2.
  destruct (add_reaction p (Reaction onF onR d) st1) as [ u st2 ]; simpl in *.
  rewrite E2. unfold new_promise in E1. by simplify_eq.
Qed.

Lemma requestPermission_effect id st :
  requestPermission id st =
  (length (promises st),
   Machine (this_PERMISSIONS st)
           (promises st ++ [Cell Pending []])
           (jobs st)
           (trace st ++ [EvNative (AP_requestPermission id)
                                  (RequestResult (length (promises st)))
                                  (RequestError (length (promises st)))])).
Proof. reflexivity. Qed.

Lemma trace_rationale_requestPermission p id st :
  trace (exec (rationale_requestPermission p id) st) =
  trace st ++ [EvNative (AP_requestPermission id)
                        (RequestResult (length (promises st)))
                        (RequestError (length (promises st)))].
Proof.
  unfold rationale_requestPermission, promise_then, promise_catch, exec, mbind, M_bind.
  rewrite requestPermission_effect.
  match goal with
  | |- context [ promise_react ?q ?f ?r ?s ] =>
      pose proof (trace_promise_react q f r s) as E1;
      destruct (promise_react q f r s) as [ q' st1 ]
  end.
  match goal with
  | |- context [ promise_react ?q ?f ?r ?s ] =>
      pose proof (trace_promise_react q f r s) as E2;
      destruct (promise_react q f r s) as [ q'' st2 ]
  end.
  simpl in *. by rewrite E2, E1.
Qed.

Lemma call_appends cl args st :
  ∃ l, trace (exec (call cl args) st) =
       trace st ++ body cl args (length (promises st)) ++ l
       ∧ Forall is_settle l.
Proof.
  assert (Hsettle : ∀ p o, ∃ l, trace (exec (settle p o) st) = trace st ++ [] ++ l
                               ∧ Forall is_settle l).
  { intros p o. apply (settles_after_settle (trace st) p o st), settles_after_refl. }
  assert (Hthunk : ∀ p permission, ∃ l,
             trace (exec (rationale_requestPermission p permission) st) =
             trace st ++ [EvNative (AP_requestPermission permission)
                                   (RequestResult (length (promises st)))
                                   (RequestError (length (promises st)))] ++ l
             ∧ Forall is_settle l).
  { intros p permission. exists []. by rewrite trace_rationale_requestPermission. }
  destruct cl; simpl; unfold resolve, reject; auto.
  - destruct (truthy (arg 1 args)); [ | by auto ]. by exists [].
  - rewrite exec_bind.
    destruct (settles_after_settle (trace st ++ [error_alert]) p (Rejected VUndefined)
                (exec (native (DM_showAlert None "Error Requesting Permissions")
                              EmptyObject EmptyObject) st))
      as [ l [ Hl Hs ] ]; [ by exists []; rewrite app_nil_r | ].
    exists l. split; [ | done ]. etrans; [ exact Hl | ]. by rewrite <- app_assoc.
  - exists []. split; [ | done ]. simpl. by rewrite app_nil_r.
Qed.

(** A delivery that invokes a callback appends the callback, what its body
    emits, and settlements. *)
Lemma deliver_trace f st i :
  calls st !! handle f = Some i →
  callable (pick (which f) i) = true →
  ∃ l, trace (exec (deliver f) st) =
       trace st ++ EvCallback (handle f) (pick (which f) i) (fargs f)
                :: body (pick (which f) i) (fargs f) (length (promises st)) ++ l
       ∧ Forall is_settle l.
Proof.
  intros Hi Hc.
  set (cl := pick (which f) i) in *.
  set (st1 := exec (emit (EvCallback (handle f) cl (fargs f))) st).
  assert (exec (deliver f) st = exec drain (exec (call cl (fargs f)) st1)) as ->.
  { unfold exec at 1, deliver. rewrite Hi. fold cl. rewrite Hc.
    change (exec (emit (EvCallback (handle f) cl (fargs f));;
                  call cl (fargs f);; drain) st = exec drain (exec (call cl (fargs f)) st1)).
    by rewrite !exec_bind. }
  destruct (call_appends cl (fargs f) st1) as [ l1 [ Hl1 Hs1 ] ].
  destruct (settles_after_drain (trace (exec (call cl (fargs f)) st1))
              (exec (call cl (fargs f)) st1) (settles_after_refl _))
    as [ l2 [ Hl2 Hs2 ] ].
  exists (l1 ++ l2). split; [ | by apply Forall_app ].
  etrans; [ exact Hl2 | ]. rewrite Hl1. subst st1; simpl.
  by rewrite <- !app_assoc.
Qed.

(** A delivery either changes nothing, or it invokes a callback. *)
Lemma deliver_appends f st :
  exec (deliver f) st = st
  ∨ ∃ i l,
      calls st !! handle f = Some i
      ∧ callable (pick (which f) i) = true
      ∧ trace (exec (deliver f) st) =
        trace st ++ EvCallback (handle f) (pick (which f) i) (fargs f)
                 :: body (pick (which f) i) (fargs f) (length (promises st)) ++ l
      ∧ Forall is_settle l.
Proof.
  destruct (calls st !! handle f) as [ i | ] eqn:Hi;
    [ | left; unfold exec, deliver; by rewrite Hi ].
  destruct (callable (pick (which f) i)) eqn:Hc;
    [ | left; unfold exec, deliver; by rewrite Hi, Hc ].
  right. destruct (deliver_trace f st i Hi Hc) as (l & Htr & Hs). by exists i, l.
Qed.

(** * Phase 2 runs exactly when the source says so *)

Section Phase2.
Context (id title message : string).
Local Abbreviation query_succeeded := (query_succeeded id title message).
Local Abbreviation dialog_proceeded := (dialog_proceeded id).
Local Abbreviation request_issued := (request_issued id).
Local Abbreviation phase2_condition := (phase2_condition id title message).
Local Abbreviation justified := (justified id title message).
Local Abbreviation causal := (causal id title message).

Lemma query_succeeded_mono tr l b : query_succeeded tr b → query_succeeded (tr ++ l) b.
Proof.
  intros (h & args & Hin & Hb). exists h, args. split; [ | done ].
  apply elem_of_app. by left.
Qed.

Lemma dialog_proceeded_mono tr l : dialog_proceeded tr → dialog_proceeded (tr ++ l).
Proof.
  intros (h & args & Hin). exists h, args. apply elem_of_app. by left.
Qed.

Lemma request_issued_mono tr l : request_issued tr → request_issued (tr ++ l).
Proof.
  intros (cb1 & cb2 & Hin). exists cb1, cb2. apply elem_of_app. by left.
Qed.

Lemma phase2_condition_mono tr l : phase2_condition tr → phase2_condition (tr ++ l).
Proof.
  intros [ H | [ H1 H2 ] ]; [ left | right ];
    auto using query_succeeded_mono, dialog_proceeded_mono.
Qed.

Lemma justified_mono tr l e : justified tr e → justified (tr ++ l) e.
Proof.
  destruct e as [ [ p | p | p | [ t | ] m ] cb1 cb2 | h [ ] args | p o ]; simpl;
    try done; intros H; destruct_and?; split_and?;
    auto using query_succeeded_mono, phase2_condition_mono.
Qed.

(** Settlements tell nothing about the three observations. *)
Lemma query_succeeded_settles tr l b :
  Forall is_settle l → query_succeeded (tr ++ l) b → query_succeeded tr b.
Proof.
  intros Hs (h & args & Hin & Hb). exists h, args. split; [ | done ].
  apply elem_of_app in Hin as [ Hin | Hin ]; [ done | ].
  by eapply Forall_forall in Hs; [ | exact Hin ].
Qed.

Lemma dialog_proceeded_settles tr l :
  Forall is_settle l → dialog_proceeded (tr ++ l) → dialog_proceeded tr.
Proof.
  intros Hs (h & args & Hin). exists h, args.
  apply elem_of_app in Hin as [ Hin | Hin ]; [ done | ].
  by eapply Forall_forall in Hs; [ | exact Hin ].
Qed.

Lemma causal_settles tr l : Forall is_settle l → causal tr → causal (tr ++ l).
Proof.
  intros Hs (Hj & Hq & Hd). split_and!.
  - apply Forall_app. split.
    + eapply Forall_impl; [ exact Hj | ]. intros e. apply justified_mono.
    + eapply Forall_impl; [ exact Hs | ]. by intros [ ].
  - intros H. apply request_issued_mono, Hq. by eapply query_succeeded_settles.
  - intros H. apply request_issued_mono, Hd. by eapply dialog_proceeded_settles.
Qed.

Lemma causal_app tr l :
  causal tr →
  Forall (justified (tr ++ l)) l →
  (query_succeeded l false → request_issued (tr ++ l)) →
  (dialog_proceeded l → request_issued (tr ++ l)) →
  causal (tr ++ l).
Proof.
  intros (Hj & Hq & Hd) Hl Hql Hdl. split_and!.
  - apply Forall_app. split; [ | done ].
    eapply Forall_impl; [ exact Hj | ]. intros e. apply justified_mono.
  - intros (h & args & Hin & Hb). apply elem_of_app in Hin as [ Hin | Hin ].
    + apply request_issued_mono, Hq. by exists h, args.
    + apply Hql. by exists h, args.
  - intros (h & args & Hin). apply elem_of_app in Hin as [ Hin | Hin ].
    + apply request_issued_mono, Hd. by exists h, args.
    + apply Hdl. by exists h, args.
Qed.

Ltac issued_now := do 2 eexists; apply elem_of_app; right; elem_search.

Ltac observe_new :=
  let Hin := fresh "Hin" in
  let Hb := fresh "Hb" in
  first
    [ intros (? & ? & Hin & Hb); elem_inv Hin; first [ congruence | issued_now ]
    | intros (? & ? & Hin); elem_inv Hin; issued_now ].

Ltac seen_now :=
  do 2 eexists; split; [ apply elem_of_app; right; elem_search | done ].

(** Invoking a callback that an issued call registered keeps the trace
    causal. *)
Lemma causal_step tr c cb1 cb2 sl h args q :
  causal tr →
  EvNative c cb1 cb2 ∈ tr →
  callable (pick sl (c, cb1, cb2)) = true →
  causal (tr ++ EvCallback h (pick sl (c, cb1, cb2)) args
             :: body (pick sl (c, cb1, cb2)) args q).
Proof.
  intros Hc Hin Hcall. pose proof Hc as (Hj & _ & _).
  eapply Forall_forall in Hj; [ | exact Hin ].
  destruct c as [ p | p | p | [ t | ] m ]; simpl in Hj; [ done | | | | ].
  - destruct Hj as (-> & (q' & -> & ->) & Hp).
    destruct sl; simpl; apply causal_app; try done; try observe_new;
      by repeat constructor.
  - destruct Hj as (-> & -> & ->).
    destruct sl; simpl; [ destruct (truthy (arg 1 args)) eqn:Ht | ];
      apply causal_app; try done; try observe_new;
      repeat (apply Forall_cons; split); try apply Forall_nil; simpl; try done.
    + split_and!; try done. seen_now.
    + split_and!; try done; [ by eexists | ]. left. seen_now.
  - destruct Hj as (-> & -> & Hq).
    destruct sl; simpl; apply causal_app; try done; try observe_new;
      repeat (apply Forall_cons; split); try apply Forall_nil; simpl; try done.
    + split_and!; try done. by apply query_succeeded_mono.
    + split_and!; try done; [ by eexists | ]. right. split.
      * by apply query_succeeded_mono.
      * do 2 eexists. apply elem_of_app. right. elem_search.
  - destruct Hj as (-> & ->). by destruct sl.
Qed.

Lemma issued_call_in_trace st h i :
  calls st !! h = Some i → EvNative i.1.1 i.1.2 i.2 ∈ trace st.
Proof.
  intros Hi. apply list_elem_of_lookup_2 in Hi.
  apply list_elem_of_omap in Hi as (e & He & Hi).
  destruct e; simpl in Hi; by simplify_eq.
Qed.

Lemma causal_deliver f st : causal (trace st) → causal (trace (exec (deliver f) st)).
Proof.
  intros Hc.
  destruct (deliver_appends f st) as [ -> | (i & l & Hi & Hcall & Htr & Hs) ]; [ done | ].
  rewrite Htr.
  match goal with
  | |- causal (?tr ++ ?e :: ?b ++ l) => replace (tr ++ e :: b ++ l) with ((tr ++ e :: b) ++ l)
  end.
  2: { by rewrite <- app_assoc. }
  apply causal_settles; [ done | ].
  destruct i as [ [ c cb1 ] cb2 ].
  apply causal_step; [ done | | done ].
  by apply (issued_call_in_trace st (handle f) (c, cb1, cb2)).
Qed.

Lemma causal_awaiting_check catalog :
  causal (trace (awaiting_check catalog id title message)).
Proof.
  split_and!.
  - by repeat constructor.
  - intros (h & args & Hin & _). elem_inv Hin.
  - intros (h & args & Hin). elem_inv Hin.
Qed.

Lemma causal_run catalog fs :
  causal (trace (run fs (awaiting_check catalog id title message))).
Proof.
  induction fs as [ | f fs IH ] using rev_ind.
  - apply causal_awaiting_check.
  - rewrite run_snoc. by apply causal_deliver.
Qed.
End Phase2.

(** * Single-phase operations: what the caller sees *)

Lemma settle_event_logged p o st : EvSettle p o ∈ trace st ↔ o ∈ settlements p st.
Proof.
  unfold settlements. rewrite list_elem_of_omap. split.
  - intros H. exists (EvSettle p o). split; [ done | ]. simpl. by rewrite decide_True.
  - intros (e & He & Hs). destruct e as [ | | q o' ]; simpl in Hs; try done.
    case_decide; by simplify_eq.
Qed.

Lemma observed_settled o f fs st :
  coherent st →
  state_of (exec (deliver f) st) 0 = Settled o →
  observed (run (f :: fs) st) = (Settled o, [o]).
Proof.
  intros Hc Hs. rewrite run_cons. unfold observed.
  destruct (settled_for_good 0 o fs (exec (deliver f) st)) as [ -> -> ]; try done.
  apply (coherent_kept [f] st Hc).
Qed.

(** * The job queue always runs dry

    [drain] gives [run_jobs] a budget; the budget is enough, and a larger one
    changes nothing. *)

Lemma sum_list_insert {A} (f : A → nat) (l : list A) p c c' :
  l !! p = Some c →
  sum_list (f <$> <[p := c']> l) + f c = sum_list (f <$> l) + f c'.
Proof.
  revert p. induction l as [ | x l IH ]; intros [ | p ] Hp; simplify_eq/=.
  - lia.
  - specialize (IH p Hp). lia.
Qed.

Lemma potential_settle k p o : preserves (λ st, potential st = k) (settle p o).
Proof.
  intros st <-. destruct (settle_cases p o st) as [ | rs Hp ]; [ done | ].
  unfold potential; simpl. rewrite length_app, length_fmap.
  pose proof (sum_list_insert pending_reactions (promises st) p _ (Cell (Settled o) []) Hp)
    as Hsum.
  change (pending_reactions (Cell (Settled o) [])) with 0 in Hsum.
  change (pending_reactions (Cell Pending rs)) with (length rs) in Hsum. lia.
Qed.

Lemma potential_run_job j st : potential (exec (run_job j) st) = potential st.
Proof.
  apply (preserves_run_job (λ s, potential s = potential st)); [ | done ].
  intros p o. apply potential_settle.
Qed.

Lemma run_jobs_quiescent n st : potential st ≤ n → jobs (exec (run_jobs n) st) = [].
Proof.
  revert st. induction n as [ | n IH ]; intros st Hn.
  - unfold potential in Hn. destruct (jobs st) eqn:E; simpl in *; [ | lia ].
    unfold exec; simpl. by rewrite E.
  - unfold exec; simpl. destruct (jobs st) as [ | j js ] eqn:E; [ done | ].
    change ((run_job j;; run_jobs n) (with_jobs st js)).2
      with (exec (run_job j;; run_jobs n) (with_jobs st js)).
    rewrite exec_bind. apply IH.
    change ((run_job j (with_jobs st js)).2) with (exec (run_job j) (with_jobs st js)).
    rewrite potential_run_job. unfold potential in *; simpl. rewrite E in Hn.
    simpl in Hn. lia.
Qed.

Lemma potential_le_budget st : potential st ≤ job_budget st.
Proof.
  unfold potential, job_budget. apply Nat.add_le_mono_l.
  induction (promises st) as [ | c l IH ]; csimpl; [ done | ].
  assert (pending_reactions c ≤ length (reactions c)).
  { unfold pending_reactions. destruct (pstate c); lia. }
  lia.
Qed.

(** Totality of the event loop step: after every delivery the queue is empty. *)
Theorem drain_quiescent st : jobs (exec drain st) = [].
Proof. apply run_jobs_quiescent, potential_le_budget. Qed.

Lemma run_jobs_fuel n m st :
  potential st ≤ n → potential st ≤ m → run_jobs n st = run_jobs m st.
Proof.
  revert m st. induction n as [ | n IH ]; intros m st Hn Hm.
  - unfold potential in Hn. destruct (jobs st) eqn:E; simpl in *; [ | lia ].
    destruct m; simpl; by rewrite ?E.
  - destruct (jobs st) as [ | j js ] eqn:E.
    + destruct m; simpl; by rewrite ?E.
    + destruct m as [ | m ].
      { unfold potential in Hm. rewrite E in Hm. simpl in Hm. lia. }
      simpl. rewrite E. unfold mbind, M_bind.
      pose proof (potential_run_job j (with_jobs st js)) as Hp. unfold exec in Hp.
      destruct (run_job j (with_jobs st js)) as [ [] st1 ]; simpl in Hp.
      apply IH; unfold potential in *; rewrite E in *; simpl in *; lia.
Qed.

Lemma drain_fuel n st : job_budget st ≤ n → drain st = run_jobs n st.
Proof.
  intros Hn. pose proof (potential_le_budget st).
  unfold drain. apply run_jobs_fuel; lia.
Qed.

Lemma deliver_quiescent f st : jobs st = [] → jobs (exec (deliver f) st) = [].
Proof.
  intros Hq. unfold exec, deliver.
  destruct (calls st !! handle f) as [ i | ]; [ | done ].
  destruct (callable (pick (which f) i)); [ | done ].
  change (jobs (exec (emit (EvCallback (handle f) (pick (which f) i) (fargs f));;
                      call (pick (which f) i) (fargs f);; drain) st) = []).
  rewrite !exec_bind. apply drain_quiescent.
Qed.

(** * Settlement is single-shot *)

(** The trace only grows. *)
Lemma trace_grows fs st : trace st `prefix_of` trace (run fs st).
Proof.
  apply (preserves_run (λ s, trace st `prefix_of` trace s)); unfold preserves; try done.
  - intros p o s Hs. destruct (settle_cases p o s); [ done | ]. by apply prefix_app_r.
  - intros p r s Hs. by rewrite trace_add_reaction.
  - intros c cb1 cb2 s Hs. by apply prefix_app_r.
  - intros h cl args s Hs. by apply prefix_app_r.
Qed.

Lemma trace_kept e fs st : e ∈ trace st → e ∈ trace (run fs st).
Proof.
  intros He. destruct (trace_grows fs st) as [ k -> ]. apply elem_of_app. by left.
Qed.

Lemma coherent_at_most_once st : coherent st → at_most_once st.
Proof.
  intros Hc. specialize (Hc 0).
  assert (∀ o o', EvSettle 0 o ∈ trace st → EvSettle 0 o' ∈ trace st → o = o') as Hsame.
  { intros o o' Ho Ho'. apply settle_event_logged in Ho, Ho'. rewrite Hc in Ho, Ho'.
    destruct (state_of st 0); [ elem_inv Ho | ].
    elem_inv Ho. elem_inv Ho'. done. }
  split_and!; [ | done | ].
  - rewrite Hc. destruct (state_of st 0); simpl; lia.
  - intros v r [ Hv Hr ]. by specialize (Hsame _ _ Hv Hr).
Qed.

(** * Relocation: the simulation *)

Section Relocation.
Context (np nh : nat) (r : string → string).
Local Abbreviation move_handler := (move_handler np).
Local Abbreviation move_reaction := (move_reaction np).
Local Abbreviation move_cell := (move_cell np).
Local Abbreviation move_job := (move_job np).
Local Abbreviation move_closure := (move_closure np r).
Local Abbreviation move_call := (move_call r).
Local Abbreviation move_invocation := (move_invocation np r).
Local Abbreviation move_event := (move_event np nh r).
Local Abbreviation move_firing := (move_firing nh).
Local Abbreviation moved := (moved np).

Context (amb : machine).
Hypothesis amb_promises : length (promises amb) = np.
Hypothesis amb_calls : length (calls amb) = nh.
Local Abbreviation embeds := (embeds np nh r amb).
Local Abbreviation emb_jobs := (emb_jobs np nh r amb).
Local Abbreviation sim := (sim np nh r amb).

Lemma sim_ret {A} (RA : A → A → Prop) x x' : RA x x' → sim RA (mret x) (mret x').
Proof. by intros Hx st st' He. Qed.

Lemma sim_bind {A B} (RA : A → A → Prop) (RB : B → B → Prop) m m' f f' :
  sim RA m m' → (∀ a a', RA a a' → sim RB (f a) (f' a')) →
  sim RB (m ≫= f) (m' ≫= f').
Proof.
  intros Hm Hf st st' He. unfold mbind, M_bind.
  destruct (Hm st st' He) as [ Ha He' ].
  destruct (m st) as [ a st1 ], (m' st') as [ a' st1' ]. by apply Hf.
Qed.

Lemma sim_seq {A B} (RA : A → A → Prop) (RB : B → B → Prop) m m' (k k' : M B) :
  sim RA m m' → sim RB k k' → sim RB (m;; k) (m';; k').
Proof. intros Hm Hk. eapply sim_bind; [ exact Hm | ]. by intros. Qed.

Lemma sim_new_promise : sim moved new_promise new_promise.
Proof.
  intros st st' [ Hc Hp Hj Ht ]. split.
  - unfold moved; simpl. rewrite Hp, length_app, length_fmap. lia.
  - split; simpl; try done. rewrite Hp, fmap_app. by rewrite <- app_assoc.
Qed.

Lemma sim_emit e : sim eq (emit e) (emit (move_event e)).
Proof.
  intros st st' [ Hc Hp Hj Ht ]. split; [ done | ].
  split; simpl; try done. rewrite Ht, fmap_app. by rewrite <- app_assoc.
Qed.

Lemma sim_enqueue js : sim eq (enqueue js) (enqueue (move_job <$> js)).
Proof.
  intros st st' [ Hc Hp Hj Ht ]. split; [ done | ].
  split; simpl; try done. by rewrite Hj, fmap_app.
Qed.

Lemma embeds_lookup st st' p :
  embeds st st' → promises st' !! (np + p) = move_cell <$> promises st !! p.
Proof.
  intros [ Hc Hp Hj Ht ]. rewrite Hp, lookup_app_r by lia.
  rewrite list_lookup_fmap. f_equal. f_equal. lia.
Qed.

Lemma embeds_insert st st' p c :
  embeds st st' →
  embeds (with_promises st (<[p := c]> (promises st)))
         (with_promises st' (<[np + p := move_cell c]> (promises st'))).
Proof.
  intros [ Hc Hp Hj Ht ]. split; simpl; try done.
  rewrite Hp, insert_app_r_alt by lia. rewrite list_fmap_insert.
  do 2 f_equal. lia.
Qed.

Lemma move_mk_job o x : mk_job o (move_reaction x) = move_job (mk_job o x).
Proof. by destruct o. Qed.

Lemma sim_settle p o : sim eq (settle p o) (settle (np + p) o).
Proof.
  intros st st' He. unfold settle.
  rewrite (embeds_lookup st st' p He).
  destruct (promises st !! p) as [ [ [ | o' ] rs ] | ]; try done.
  pose proof (embeds_insert st st' p (Cell (Settled o) []) He) as Hi.
  assert (sim eq (enqueue (mk_job o <$> rs))
                 (enqueue (mk_job o <$> (move_reaction <$> rs)))) as Hk.
  { rewrite <- list_fmap_compose.
    rewrite (list_fmap_ext (mk_job o ∘ move_reaction) (move_job ∘ mk_job o) rs)
      by (intros; apply move_mk_job).
    rewrite list_fmap_compose. apply sim_enqueue. }
  exact (sim_seq eq eq _ _ _ _ (sim_emit (EvSettle p o)) Hk _ _ Hi).
Qed.

Lemma sim_add_reaction p x :
  sim eq (add_reaction p x) (add_reaction (np + p) (move_reaction x)).
Proof.
  intros st st' He. unfold add_reaction.
  rewrite (embeds_lookup st st' p He).
  destruct (promises st !! p) as [ [ [ | o' ] rs ] | ]; simpl; try done.
  - split; [ done | ].
    pose proof (embeds_insert st st' p (Cell Pending (rs ++ [x])) He) as Hi.
    unfold move_cell in Hi; simpl in Hi. by rewrite fmap_app in Hi.
  - rewrite move_mk_job. by apply (sim_enqueue [mk_job o' x]).
Qed.
Lemma sim_promise_react p onF onR :
  sim moved (promise_react p onF onR)
            (promise_react (np + p) (move_handler <$> onF) (move_handler <$> onR)).
Proof.
  unfold promise_react. eapply sim_bind; [ apply sim_new_promise | ].
  intros d d' ->. eapply sim_seq; [ | by apply sim_ret ].
  apply (sim_add_reaction p (Reaction onF onR d)).
Qed.

Lemma sim_call_handler h x : sim eq (call_handler h x) (call_handler (move_handler h) x).
Proof.
  destruct h; simpl; (eapply sim_seq; [ apply sim_settle | by apply sim_ret ]).
Qed.

Lemma sim_run_job j : sim eq (run_job j) (run_job (move_job j)).
Proof.
  unfold run_job. destruct j as [ [ h | ] o d ]; simpl.
  - eapply sim_bind; [ apply sim_call_handler | ]. intros v v' ->. apply sim_settle.
  - apply sim_settle.
Qed.

Lemma sim_run_jobs n : sim eq (run_jobs n) (run_jobs n).
Proof.
  induction n as [ | n IH ]; intros st st' He; [ done | ]. simpl.
  pose proof (emb_jobs _ _ He) as Hj.
  destruct (jobs st) as [ | j js ]; rewrite Hj; [ done | ]. simpl.
  apply (sim_seq eq eq _ _ _ _ (sim_run_job j) IH).
  destruct He. by split.
Qed.

Lemma embeds_budget st st' : embeds st st' → job_budget st ≤ job_budget st'.
Proof.
  intros [ Hc Hp Hj Ht ]. unfold job_budget.
  rewrite Hj, Hp, length_fmap, fmap_app, sum_list_with_app, <- list_fmap_compose.
  rewrite (list_fmap_ext ((λ c, length (reactions c)) ∘ move_cell)
                         (λ c, length (reactions c)) (promises st)).
  - lia.
  - intros i c _. apply length_fmap.
Qed.

Lemma sim_drain : sim eq drain drain.
Proof.
  intros st st' He.
  rewrite (drain_fuel (job_budget st') st (embeds_budget st st' He)).
  by apply sim_run_jobs.
Qed.

Lemma sim_new_Promise ex ex' :
  (∀ p, sim eq (ex p) (ex' (np + p))) → sim moved (new_Promise ex) (new_Promise ex').
Proof.
  intros H. unfold new_Promise. eapply sim_bind; [ apply sim_new_promise | ].
  intros p p' ->. eapply sim_seq; [ apply H | by apply sim_ret ].
Qed.

Lemma sim_checkPermission id : sim moved (checkPermission id) (checkPermission (r id)).
Proof.
  apply sim_new_Promise. intros p.
  apply (sim_emit (EvNative (AP_checkPermission id) (CheckResult p) (CheckError p))).
Qed.

Lemma sim_requestPermission id : sim moved (requestPermission id) (requestPermission (r id)).
Proof.
  apply sim_new_Promise. intros p.
  apply (sim_emit (EvNative (AP_requestPermission id) (RequestResult p) (RequestError p))).
Qed.

Lemma sim_requestPermissionWithRationale id t m :
  sim moved (requestPermissionWithRationale id t m)
            (requestPermissionWithRationale (r id) t m).
Proof.
  apply sim_new_Promise. intros p.
  apply (sim_emit (EvNative (AP_shouldShowRequestPermissionRationale id)
                            (RationaleResult p id t m) (RationaleError p))).
Qed.

Lemma sim_rationale_requestPermission p id :
  sim eq (rationale_requestPermission p id)
         (rationale_requestPermission (np + p) (r id)).
Proof.
  unfold rationale_requestPermission, promise_then, promise_catch.
  eapply sim_bind; [ apply sim_requestPermission | ]. intros q q1 ->.
  eapply sim_bind; [ apply (sim_promise_react q (Some (ThenGranted p)) None) | ].
  intros q' q1' ->.
  eapply sim_bind; [ apply (sim_promise_react q' None (Some (CatchErr p))) | ].
  intros _ _ _. by apply sim_ret.
Qed.

Lemma sim_call cl args : sim eq (call cl args) (call (move_closure cl) args).
Proof.
  destruct cl; simpl; unfold resolve, reject, native;
    try apply sim_settle; try apply sim_rationale_requestPermission.
  - destruct (truthy (arg 1 args)); [ | apply sim_rationale_requestPermission ].
    apply (sim_emit (EvNative (DM_showAlert (Some title) message) (DialogDismissed p)
                              (RequestPermissionThunk p permission))).
  - eapply sim_seq; [ | apply sim_settle ].
    apply (sim_emit (EvNative (DM_showAlert None "Error Requesting Permissions")
                              EmptyObject EmptyObject)).
  - by apply sim_ret.
Qed.

Lemma embeds_calls st st' :
  embeds st st' → calls st' = calls amb ++ (move_invocation <$> calls st).
Proof.
  intros [ Hc Hp Hj Ht ]. unfold calls. rewrite Ht, omap_app. f_equal.
  clear Ht. induction (trace st) as [ | e l IH ]; [ done | ].
  destruct e; csimpl; by rewrite IH.
Qed.

Lemma sim_deliver f : sim eq (deliver f) (deliver (move_firing f)).
Proof.
  intros st st' He. unfold deliver; simpl.
  rewrite (embeds_calls st st' He), lookup_app_r by lia.
  replace (nh + handle f - length (calls amb)) with (handle f) by lia.
  rewrite list_lookup_fmap.
  destruct (calls st !! handle f) as [ [ [ c cb1 ] cb2 ] | ]; [ | done ]. simpl.
  assert (callable (pick (which f) (move_invocation (c, cb1, cb2)))
          = callable (pick (which f) (c, cb1, cb2))) as ->.
  { by destruct (which f), cb1, cb2. }
  destruct (callable (pick (which f) (c, cb1, cb2))); [ | done ].
  assert (pick (which f) (move_invocation (c, cb1, cb2))
          = move_closure (pick (which f) (c, cb1, cb2))) as ->.
  { by destruct (which f). }
  revert st st' He.
  eapply sim_seq; [ | eapply sim_seq; [ apply sim_call | apply sim_drain ] ].
  apply (sim_emit (EvCallback (handle f) (pick (which f) (c, cb1, cb2)) (fargs f))).
Qed.

Lemma embeds_run fs st st' :
  embeds st st' → embeds (run fs st) (run (move_firing <$> fs) st').
Proof.
  revert st st'. induction fs as [ | f fs IH ]; intros st st' He; [ done | ].
  rewrite fmap_cons, !run_cons. apply IH. by apply sim_deliver.
Qed.

Lemma embeds_init catalog : jobs amb = [] → embeds (init catalog) amb.
Proof. intros Hq. split; simpl; by rewrite ?app_nil_r. Qed.

Lemma embeds_state_of st st' p : embeds st st' → state_of st' (np + p) = state_of st p.
Proof.
  intros He. unfold state_of. rewrite (embeds_lookup st st' p He).
  by destruct (promises st !! p).
Qed.

Lemma embeds_native_calls st st' :
  embeds st st' → native_calls st' = native_calls amb ++ (move_call <$> native_calls st).
Proof.
  intros He. unfold native_calls. rewrite (embeds_calls st st' He), fmap_app.
  f_equal. rewrite <- !list_fmap_compose. by apply list_fmap_ext.
Qed.
End Relocation.

Lemma sim_invoke amb r o :
  sim (length (promises amb)) (length (calls amb)) r amb
      (moved (length (promises amb))) (invoke o) (invoke (rename_operation r o)).
Proof.
  destruct o; simpl.
  - by apply sim_checkPermission.
  - by apply sim_requestPermission.
  - by apply sim_requestPermissionWithRationale.
Qed.

(** The run of an invocation inside a quiescent machine is the relocated run
    of the same invocation on a fresh machine. *)
Lemma invocation_embeds amb catalog r o fs :
  jobs amb = [] →
  (invoke (rename_operation r o) amb).1 = length (promises amb)
  ∧ embeds (length (promises amb)) (length (calls amb)) r amb
           (run fs (started (invoke o) catalog))
           (run (answer_in amb fs) (exec (invoke (rename_operation r o)) amb)).
Proof.
  intros Hq.
  destruct (sim_invoke amb r o (init catalog) amb
              (embeds_init _ _ _ amb catalog Hq)) as [ Hp He ].
  split.
  - rewrite Hp. by destruct o.
  - by apply embeds_run.
Qed.

Lemma move_firing_0 (fs : list firing) : move_firing 0 <$> fs = fs.
Proof.
  induction fs as [ | [ h sl args ] fs IH ]; [ done | ]. csimpl. by rewrite IH.
Qed.

Lemma move_call_id (l : list native_call) : move_call (λ s, s) <$> l = l.
Proof.
  induction l as [ | c l IH ]; [ done | ]. csimpl. rewrite IH. by destruct c.
Qed.

Lemma rename_operation_id o : rename_operation (λ s, s) o = o.
Proof. by destruct o. Qed.

Lemma settlement_of_moved np nh r p (l : list event) :
  omap (settlement_of (np + p)) (move_event np nh r <$> l) = omap (settlement_of p) l.
Proof.
  induction l as [ | e l IH ]; [ done | ]. csimpl. rewrite IH.
  destruct e as [ | | q o ]; simpl; try done.
  destruct (decide (q = p)) as [ -> | Hne ].
  - by rewrite decide_True.
  - by rewrite decide_False by lia.
Qed.

(** Inside any quiescent machine, an invocation is observed exactly as on a
    fresh machine. *)
Lemma invocation_observed amb catalog o fs :
  jobs amb = [] →
  let big := run (answer_in amb fs) (exec (invoke o) amb) in
  let small := run fs (started (invoke o) catalog) in
  state_of big (invoke o amb).1 = state_of small 0
  ∧ issued_since amb big = native_calls small
  ∧ settlements_since amb big (invoke o amb).1 = settlements 0 small.
Proof.
  intros Hq big small.
  destruct (invocation_embeds amb catalog (λ s, s) o fs Hq) as [ Hp He ].
  rewrite rename_operation_id in Hp, He. fold big small in He. rewrite Hp.
  split_and!.
  - rewrite <- (embeds_state_of _ _ _ amb eq_refl eq_refl small big 0 He).
    by rewrite Nat.add_0_r.
  - unfold issued_since. rewrite (embeds_native_calls _ _ _ _ _ _ He).
    replace (length (calls amb)) with (length (native_calls amb))
      by (unfold native_calls; apply length_fmap).
    by rewrite drop_app_length, move_call_id.
  - unfold settlements_since, trace_since. rewrite (emb_trace _ _ _ _ _ _ He).
    rewrite drop_app_length. unfold settlements.
    rewrite <- (settlement_of_moved (length (promises amb)) (length (calls amb))
                                    (λ s, s) 0 (trace small)).
    by rewrite Nat.add_0_r.
Qed.

(** * The catalog is only data *)

Lemma invoke_keeps_catalog o st : this_PERMISSIONS (exec (invoke o) st) = this_PERMISSIONS st.
Proof. by destruct o. Qed.

Lemma move_closure_id cl : move_closure 0 (λ s, s) cl = cl.
Proof. by destruct cl. Qed.

Lemma rename_event_id (l : list event) : rename_event (λ s, s) <$> l = l.
Proof.
  induction l as [ | e l IH ]; [ done | ]. csimpl. rewrite IH. f_equal.
  destruct e as [ c cb1 cb2 | h cl args | p o ]; simpl;
    rewrite ?move_closure_id; try done.
  by destruct c.
Qed.

(** Runs of one operation on fresh machines that differ in the catalog and in
    the identifier, renamed by [r], differ in nothing but the identifier. *)
Lemma renamed_run catalog catalog' r o fs :
  let st := run fs (started (invoke o) catalog) in
  let st' := run fs (started (invoke (rename_operation r o)) catalog') in
  trace st' = rename_event r <$> trace st
  ∧ state_of st' 0 = state_of st 0
  ∧ settlements 0 st' = settlements 0 st.
Proof.
  intros st st'.
  destruct (invocation_embeds (init catalog') catalog r o fs eq_refl) as [ _ He ].
  unfold answer_in in He. change (length (calls (init catalog'))) with 0 in He.
  change (length (promises (init catalog'))) with 0 in He.
  rewrite move_firing_0 in He. fold st in He.
  change (exec (invoke (rename_operation r o)) (init catalog'))
    with (started (invoke (rename_operation r o)) catalog') in He.
  fold st' in He.
  assert (trace st' = rename_event r <$> trace st) as Htr.
  { by rewrite (emb_trace _ _ _ _ _ _ He). }
  split_and!; [ done | | ].
  - by rewrite <- (embeds_state_of 0 0 r (init catalog') eq_refl eq_refl st st' 0 He).
  - unfold settlements. rewrite Htr. apply (settlement_of_moved 0 0 r 0).
Qed.

(** * The promise chain of [requestPermissionWithRationale]

    [this.requestPermission(permission).then(...).catch(...)] links three
    promises to the outer one.  The section follows that chain through the job
    queue, for every sequence of firings. *)

Lemma drain_idle st : jobs st = [] → exec drain st = st.
Proof.
  intros Hq. unfold exec, drain.
  destruct (job_budget st); simpl; by rewrite ?Hq.
Qed.

Lemma deliver_unfold f st i :
  calls st !! handle f = Some i →
  callable (pick (which f) i) = true →
  exec (deliver f) st =
  exec drain
    (exec (call (pick (which f) i) (fargs f))
       (exec (emit (EvCallback (handle f) (pick (which f) i) (fargs f))) st)).
Proof.
  intros Hi Hc. unfold exec at 1, deliver. rewrite Hi, Hc.
  change (exec (emit (EvCallback (handle f) (pick (which f) i) (fargs f));;
                call (pick (which f) i) (fargs f);; drain) st = 
          exec drain
            (exec (call (pick (which f) i) (fargs f))
               (exec (emit (EvCallback (handle f) (pick (which f) i) (fargs f))) st))).
  by rewrite !exec_bind.
Qed.

Lemma promise_react_pending p onF onR st rs :
  promises st !! p = Some (Cell Pending rs) →
  promise_react p onF onR st =
  (length (promises st),
   with_promises st
     (<[p := Cell Pending (rs ++ [Reaction onF onR (length (promises st))])]> (promises st)
      ++ [Cell Pending []])).
Proof.
  intros Hp. unfold promise_react, mbind, M_bind, new_promise, add_reaction; simpl.
  rewrite (lookup_app_l_Some _ _ _ _ Hp); simpl.
  by rewrite insert_app_l by (by eapply lookup_lt_Some).
Qed.

Lemma rationale_requestPermission_effect p id st :
  exec (rationale_requestPermission p id) st =
  Machine (this_PERMISSIONS st)
          (promises st ++
             [Cell Pending [Reaction (Some (ThenGranted p)) None (S (length (promises st)))];
              Cell Pending [Reaction None (Some (CatchErr p)) (S (S (length (promises st))))];
              Cell Pending []])
          (jobs st)
          (trace st ++ [EvNative (AP_requestPermission id)
                                 (RequestResult (length (promises st)))
                                 (RequestError (length (promises st)))]).
Proof.
  unfold rationale_requestPermission, promise_then, promise_catch, exec, mbind, M_bind.
  rewrite requestPermission_effect.
  set (q := length (promises st)).
  set (P := Cell Pending []).
  match goal with |- context [ promise_react q _ _ ?s ] => set (st1 := s) end.
  assert (promises st1 !! q = Some P) as H1 by (by apply list_lookup_middle).
  rewrite (promise_react_pending q _ _ st1 [] H1).
  assert (length (promises st1) = S q) as Hl1.
  { subst st1; simpl. rewrite length_app; simpl. fold q. lia. }
  rewrite Hl1.
  match goal with |- context [ promise_react (S q) _ _ ?s ] => set (st2 := s) end.
  assert (promises st2 !! S q = Some P) as H2.
  { subst st2. unfold with_promises. cbn [promises].
    apply list_lookup_middle. by rewrite length_insert. }
  rewrite (promise_react_pending (S q) _ _ st2 [] H2).
  assert (length (promises st2) = S (S q)) as Hl2.
  { subst st2. unfold with_promises. cbn [promises].
    rewrite length_app, length_insert, Hl1; simpl. lia. }
  rewrite Hl2. simpl. f_equal.
  subst st1; simpl.
  rewrite (insert_app_r_alt (promises st) [P] q) by (fold q; lia).
  fold q. replace (q - q) with 0 by lia. simpl.
  rewrite <- !app_assoc; simpl.
  rewrite (insert_app_r_alt (promises st) _ (S q)) by (fold q; lia).
  fold q. replace (S q - q) with 1 by lia.
  subst st2. unfold with_promises. simpl. by rewrite <- app_assoc.
Qed.

Lemma decided_app tr l : decided (tr ++ l) ↔ decided tr ∨ decided l.
Proof.
  split.
  - intros (h & cl & args & Hin & Hd). apply elem_of_app in Hin as [ Hin | Hin ];
      [ left | right ]; by exists h, cl, args.
  - intros [ (h & cl & args & Hin & Hd) | (h & cl & args & Hin & Hd) ];
      exists h, cl, args; (split; [ apply elem_of_app | done ]); auto.
Qed.

Lemma decided_settles l : Forall is_settle l → ¬ decided l.
Proof.
  intros Hs (h & cl & args & Hin & _). by eapply Forall_forall in Hs; [ | exact Hin ].
Qed.

Lemma body_not_decided cl args q : ¬ decided (body cl args q).
Proof.
  intros (h & cl' & args' & Hin & _).
  destruct cl; simpl in Hin; try destruct (truthy (arg 1 args)); elem_inv Hin.
Qed.

(** What a delivery adds to the trace decides the operation exactly when the
    callback invoked is decisive. *)
Lemma decided_delivery tr h cl args q l :
  Forall is_settle l →
  decided (tr ++ EvCallback h cl args :: body cl args q ++ l)
  ↔ decided tr ∨ decisive cl = true.
Proof.
  intros Hs. rewrite decided_app.
  change (EvCallback h cl args :: body cl args q ++ l)
    with ([EvCallback h cl args] ++ body cl args q ++ l).
  rewrite !decided_app. split.
  - intros [ H | [ (h' & cl' & args' & Hin & Hd) | [ H | H ] ] ]; auto.
    + elem_inv Hin. auto.
    + by apply body_not_decided in H.
    + by apply decided_settles in H.
  - intros [ H | H ]; [ by left | ]. right. left. exists h, cl, args.
    split; [ apply list_elem_of_here | done ].
Qed.

Lemma is_settled_settle p q o : preserves (is_settled p) (settle q o).
Proof.
  intros st Hs. destruct (settle_cases q o st) as [ | rs Hq ]; [ done | ].
  unfold is_settled, state_of in *; simpl. destruct (decide (q = p)) as [ -> | Hne ].
  - by rewrite list_lookup_insert_eq by (by eapply lookup_lt_Some).
  - by rewrite list_lookup_insert_ne.
Qed.

Lemma is_settled_run_jobs p n : preserves (is_settled p) (run_jobs n).
Proof. apply preserves_run_jobs; [ apply is_settled_settle | done ]. Qed.

Lemma is_settled_drain p : preserves (is_settled p) drain.
Proof. apply preserves_drain; [ apply is_settled_settle | done ]. Qed.

Lemma settle_settles p o st :
  is_Some (promises st !! p) → is_settled p (exec (settle p o) st).
Proof.
  intros [ c Hc ]. unfold exec. destruct (settle_cases p o st) as [ [ H | H ] | rs Hq ].
  - done.
  - by rewrite Hc in H.
  - unfold is_settled, state_of; simpl.
    by rewrite list_lookup_insert_eq by (by eapply lookup_lt_Some).
Qed.

Lemma settle_fires_eq p o st rs :
  promises st !! p = Some (Cell Pending rs) →
  exec (settle p o) st =
  Machine (this_PERMISSIONS st) (<[p := Cell (Settled o) []]> (promises st))
          (jobs st ++ (mk_job o <$> rs)) (trace st ++ [EvSettle p o]).
Proof. intros Hp. unfold exec, settle. by rewrite Hp. Qed.

(** The job of a [then]/[catch] handler that captures the outer promise
    settles the outer promise. *)
Lemma handler_job_settles h o d st :
  is_Some (promises st !! 0) →
  (h = ThenGranted 0 ∨ h = CatchErr 0) →
  is_settled 0 (exec (run_job (Job (Some h) o d)) st).
Proof.
  intros H0 Hh. unfold run_job; simpl. rewrite exec_bind.
  apply is_settled_settle.
  destruct Hh as [ -> | -> ]; simpl; unfold resolve, reject, mbind, M_bind.
  - pose proof (settle_settles 0 (Fulfilled (payload o)) st H0) as Hs.
    unfold exec in Hs. by destruct (settle 0 (Fulfilled (payload o)) st) as [ [] st1 ].
  - pose proof (settle_settles 0 (Rejected (payload o)) st H0) as Hs.
    unfold exec in Hs. by destruct (settle 0 (Rejected (payload o)) st) as [ [] st1 ].
Qed.

Lemma run_jobs_step n st j js :
  jobs st = j :: js →
  exec (run_jobs (S n)) st = exec (run_jobs n) (exec (run_job j) (with_jobs st js)).
Proof.
  intros Hj. unfold exec at 1. simpl. rewrite Hj.
  change (exec (run_job j;; run_jobs n) (with_jobs st js)
          = exec (run_jobs n) (exec (run_job j) (with_jobs st js))).
  by rewrite exec_bind.
Qed.

Lemma drain_more k st : exec drain st = exec (run_jobs (k + job_budget st)) st.
Proof. unfold exec. rewrite (drain_fuel (k + job_budget st)); [ done | lia ]. Qed.

(** Either answer to a linked native request settles the outer promise. *)
Lemma request_answer_settles st q cl args :
  jobs st = [] → is_Some (promises st !! 0) → linked st q →
  cl = RequestResult q ∨ cl = RequestError q →
  is_settled 0 (exec drain (exec (call cl args) st)).
Proof.
  intros Hq H0 (Hne & Hq1 & Hq2) Hcl.
  destruct Hcl as [ -> | -> ]; simpl; unfold resolve, reject;
    rewrite (settle_fires_eq q _ st _ Hq1), Hq;
    match goal with |- is_settled 0 (exec drain ?s) => set (st1 := s) end.
  - rewrite (drain_more 1). cbn [Nat.add].
    rewrite (run_jobs_step _ st1 (Job (Some (ThenGranted 0)) (Fulfilled (arg 1 args)) (S q))
               [] eq_refl).
    apply is_settled_run_jobs, handler_job_settles; [ | by left ].
    subst st1; simpl. by rewrite list_lookup_insert_ne.
  - rewrite (drain_more 2). cbn [Nat.add].
    rewrite (run_jobs_step _ st1 (Job None (Rejected (arg 0 args)) (S q)) [] eq_refl).
    change (run_job (Job None (Rejected (arg 0 args)) (S q)))
      with (settle (S q) (Rejected (arg 0 args))).
    assert (promises (with_jobs st1 []) !! S q
            = Some (Cell Pending [Reaction None (Some (CatchErr 0)) (S (S q))])) as Hq2'.
    { subst st1; simpl. rewrite list_lookup_insert_ne by lia. exact Hq2. }
    rewrite (settle_fires_eq (S q) _ _ _ Hq2').
    match goal with |- is_settled 0 (exec (run_jobs _) ?s) => set (st2 := s) end.
    rewrite (run_jobs_step _ st2
               (Job (Some (CatchErr 0)) (Rejected (arg 0 args)) (S (S q))) [] eq_refl).
    apply is_settled_run_jobs, handler_job_settles; [ | by right ].
    subst st2 st1; simpl. by rewrite !list_lookup_insert_ne by lia.
Qed.

Lemma linked_grows st st' q extra :
  promises st' = promises st ++ extra → linked st q → linked st' q.
Proof.
  intros Hp (Hne & H1 & H2). unfold linked. rewrite Hp.
  split_and!; [ done | | ]; by apply lookup_app_l_Some.
Qed.

Section Chain.
Context (id title message : string).

(** A delivery that settles the outer promise by a decisive callback. *)
Lemma chained_decisive f st i :
  jobs st = [] →
  calls st !! handle f = Some i →
  callable (pick (which f) i) = true →
  decisive (pick (which f) i) = true →
  is_settled 0
    (exec drain
       (exec (call (pick (which f) i) (fargs f))
          (exec (emit (EvCallback (handle f) (pick (which f) i) (fargs f))) st))) →
  chained (exec (deliver f) st).
Proof.
  intros Hq Hi Hcall Hdec Hset. rewrite <- (deliver_unfold f st i Hi Hcall) in Hset.
  split; [ by apply deliver_quiescent | ].
  unfold is_settled in Hset. destruct (state_of (exec (deliver f) st) 0); [ done | ].
  destruct (deliver_trace f st i Hi Hcall) as (l & Htr & Hs).
  rewrite Htr. apply decided_delivery; auto.
Qed.

(** A delivery that shows the dialog or issues the native request leaves the
    outer promise pending and links the new request to it. *)
Lemma chained_pending_step f st i :
  chained st → state_of st 0 = Pending →
  calls st !! handle f = Some i →
  (∃ perm, pick (which f) i = RequestPermissionThunk 0 perm)
  ∨ (∃ perm t m, pick (which f) i = RationaleResult 0 perm t m) →
  chained (exec (deliver f) st).
Proof.
  intros [ Hq Hk ] E0 Hi Hcl. rewrite E0 in Hk. destruct Hk as (H0 & Hnd & Hlk).
  assert (callable (pick (which f) i) = true) as Hcall.
  { by destruct Hcl as [ (perm & ->) | (perm & t & m & ->) ]. }
  assert (decisive (pick (which f) i) = false) as Hdec.
  { by destruct Hcl as [ (perm & ->) | (perm & t & m & ->) ]. }
  destruct (deliver_trace f st i Hi Hcall) as (l & Htr & Hs).
  assert (∃ extra,
             promises (exec (deliver f) st) = promises st ++ extra
             ∧ jobs (exec (deliver f) st) = []
             ∧ ∀ c q cb2,
                 EvNative c (RequestResult q) cb2
                   ∈ body (pick (which f) i) (fargs f) (length (promises st)) →
                 linked (exec (deliver f) st) q) as (extra & Hp & Hj & Hnew).
  { rewrite (deliver_unfold f st i Hi Hcall).
    set (st1 := exec (emit (EvCallback (handle f) (pick (which f) i) (fargs f))) st).
    assert ((∃ perm, exec (call (pick (which f) i) (fargs f)) st1
                     = exec (rationale_requestPermission 0 perm) st1
                     ∧ body (pick (which f) i) (fargs f) (length (promises st))
                       = [EvNative (AP_requestPermission perm)
                                   (RequestResult (length (promises st)))
                                   (RequestError (length (promises st)))])
            ∨ (∃ e, exec (call (pick (which f) i) (fargs f)) st1 = exec (emit e) st1
                    ∧ ∃ t m cb1 cb2,
                        body (pick (which f) i) (fargs f) (length (promises st))
                        = [EvNative (DM_showAlert t m) (DialogDismissed cb1) cb2]))
      as [ (perm & -> & ->) | (e & -> & (t & m & cb1 & cb2 & ->)) ].
    { destruct Hcl as [ (perm & ->) | (perm & t & m & ->) ]; simpl.
      - left. by exists perm.
      - destruct (truthy (arg 1 (fargs f))).
        + right. eexists. split; [ reflexivity | ]. by eexists _, _, _, _.
        + left. by exists perm. }
    - rewrite rationale_requestPermission_effect.
      rewrite drain_idle by exact Hq. simpl. eexists. split_and!; [ done | done | ].
      intros c q cb2 Hin. elem_cases Hin. split_and!.
      + apply lookup_lt_is_Some in H0. lia.
      + by apply list_lookup_middle.
      + cbn [promises]. rewrite lookup_app_r by lia.
        by replace (S (length (promises st)) - length (promises st)) with 1 by lia.
    - rewrite drain_idle by exact Hq. simpl. exists []. rewrite app_nil_r.
      split_and!; [ done | done | ]. intros c q cb2' Hin. elem_cases Hin. }
  split; [ done | ].
  assert (state_of (exec (deliver f) st) 0 = Pending) as ->.
  { unfold state_of in *. rewrite Hp. destruct H0 as [ c0 Hc0 ].
    rewrite (lookup_app_l_Some _ _ _ _ Hc0). by rewrite Hc0 in E0. }
  split_and!.
  - rewrite Hp. destruct H0 as [ c0 Hc0 ]. by rewrite (lookup_app_l_Some _ _ _ _ Hc0).
  - rewrite Htr, decided_delivery by done. intros [ H | H ]; [ done | congruence ].
  - intros c q cb2 Hin. rewrite Htr in Hin.
    apply elem_of_app in Hin as [ Hin | Hin ].
    { eapply linked_grows; [ exact Hp | ]. by eapply Hlk. }
    apply elem_of_cons in Hin as [ Hin | Hin ]; [ done | ].
    apply elem_of_app in Hin as [ Hin | Hin ]; [ by eapply Hnew | ].
    by eapply Forall_forall in Hs; [ | exact Hin ].
Qed.

Lemma chained_deliver f st :
  causal id title message (trace st) → chained st → chained (exec (deliver f) st).
Proof.
  intros Hc Hk.
  destruct (calls st !! handle f) as [ i | ] eqn:Hi;
    [ | unfold exec, deliver; by rewrite Hi ].
  destruct (callable (pick (which f) i)) eqn:Hcall;
    [ | unfold exec, deliver; by rewrite Hi, Hcall ].
  destruct (state_of st 0) as [ | o ] eqn:E0.
  - pose proof Hk as [ Hq Hk' ]. rewrite E0 in Hk'. destruct Hk' as (H0 & Hnd & Hlk).
    pose proof (issued_call_in_trace st _ _ Hi) as Hin.
    pose proof Hc as (Hj & _ & _). eapply Forall_forall in Hj; [ | exact Hin ].
    destruct i as [ [ c cb1 ] cb2 ]. destruct f as [ h sl args ]. simpl in *.
    destruct c as [ p | p | p | [ t | ] m ]; [ done | | | | ].
    + destruct Hj as (-> & (q & -> & ->) & _).
      apply (chained_decisive (Fire h sl args) st _ Hq Hi Hcall); [ by destruct sl | ].
      apply request_answer_settles with (q := q); try done.
      * by eapply Hlk.
      * destruct sl; simpl; auto.
    + destruct Hj as (-> & -> & ->). destruct sl.
      * apply (chained_pending_step (Fire h Cb1 args) st _ Hk E0 Hi).
        right. by eexists _, _, _.
      * apply (chained_decisive (Fire h Cb2 args) st _ Hq Hi Hcall); [ done | ].
        simpl. apply is_settled_drain. by apply settle_settles.
    + destruct Hj as (-> & -> & _). destruct sl.
      * apply (chained_decisive (Fire h Cb1 args) st _ Hq Hi Hcall); [ done | ].
        simpl. apply is_settled_drain. rewrite exec_bind.
        by apply settle_settles.
      * apply (chained_pending_step (Fire h Cb2 args) st _ Hk E0 Hi).
        left. by eexists.
    + destruct Hj as (-> & ->). by destruct sl.
  - destruct Hk as [ Hq Hd ]. rewrite E0 in Hd.
    split; [ by apply deliver_quiescent | ].
    change (exec (deliver f) st) with (run [f] st).
    rewrite (settled_kept 0 o [f] st E0).
    change (run [f] st) with (exec (deliver f) st).
    destruct (deliver_trace f st i Hi Hcall) as (l & Htr & Hs).
    rewrite Htr. apply decided_delivery; auto.
Qed.

Lemma chained_run catalog fs :
  chained (run fs (awaiting_check catalog id title message)).
Proof.
  induction fs as [ | f fs IH ] using rev_ind.
  - split; [ done | ]. simpl. split_and!.
    + by eexists.
    + intros (h & cl & args & Hin & _). elem_inv Hin.
    + intros c q cb2 Hin. elem_inv Hin.
  - rewrite run_snoc. apply chained_deliver; [ apply causal_run | done ].
Qed.
End Chain.

(** The outer promise of [requestPermissionWithRationale] is settled exactly
    when the native layer has invoked a decisive callback: the query's failure
    callback, the dialog's dismiss callback, or either callback of a native
    request. *)
Lemma rationale_settled_iff_decided catalog id title message fs :
  let st := run fs (awaiting_check catalog id title message) in
  state_of st 0 ≠ Pending ↔ decided (trace st).
Proof.
  intros st. destruct (chained_run id title message catalog fs) as [ _ Hk ].
  fold st in Hk. destruct (state_of st 0); [ | done ].
  destruct Hk as (_ & Hnd & _). by split.
Qed.

Lemma decided_kept fs st : decided (trace st) → decided (trace (run fs st)).
Proof.
  intros (h & cl & args & Hin & Hd). exists h, cl, args. split; [ | done ].
  by apply trace_kept.
Qed.

(** A single-phase operation has one native call in flight; the first
    callback of that call settles the promise, and nothing else does. *)
Lemma single_phase_settled_iff_decided op catalog fs :
  calls (started op catalog) !! 1 = None →
  state_of (started op catalog) 0 = Pending →
  ¬ decided (trace (started op catalog)) →
  (∀ sl args,
      is_settled 0 (exec (deliver (Fire 0 sl args)) (started op catalog))
      ∧ decided (trace (exec (deliver (Fire 0 sl args)) (started op catalog)))) →
  let st := run fs (started op catalog) in
  state_of st 0 ≠ Pending ↔ decided (trace st).
Proof.
  intros Hone Hpending Hnd Hfire st. subst st.
  induction fs as [ | [ [ | h ] sl args ] fs IH ].
  - change (run [] (started op catalog)) with (started op catalog).
    rewrite Hpending. by split.
  - destruct (Hfire sl args) as [ Hs Hd ]. rewrite run_cons. split; intros _.
    + by apply decided_kept.
    + unfold is_settled in Hs.
      destruct (state_of (exec (deliver (Fire 0 sl args)) (started op catalog)) 0)
        as [ | o ] eqn:E; [ done | ].
      by rewrite (settled_kept 0 o fs _ E).
  - assert (exec (deliver (Fire (S h) sl args)) (started op catalog) = started op catalog)
      as Hnoop.
    { unfold exec, deliver; simpl.
      rewrite (lookup_ge_None_2 (calls (started op catalog)) (S h)); [ done | ].
      apply lookup_ge_None_1 in Hone. lia. }
    rewrite run_cons, Hnoop. exact IH.
Qed.

Lemma coherent_started o catalog : coherent (started (invoke o) catalog).
Proof.
  destruct o; simpl.
  - apply coherent_started_check.
  - apply coherent_started_request.
  - apply coherent_started_rationale.
Qed.

(** For each public operation: the returned promise is settled exactly when
    a decisive callback has been invoked. *)
Lemma settled_iff_decided catalog o fs :
  let st := run fs (started (invoke o) catalog) in
  state_of st 0 ≠ Pending ↔ decided (trace st).
Proof.
  destruct o as [ id | id | id title message ]; simpl.
  - apply single_phase_settled_iff_decided; try done.
    + intros (h & cl & args & Hin & _). elem_inv Hin.
    + intros sl args. destruct sl; (split; [ done | ]).
      * exists 0, (CheckResult 0), args. split; [ | done ].
        apply list_elem_of_further, list_elem_of_here.
      * exists 0, (CheckError 0), args. split; [ | done ].
        apply list_elem_of_further, list_elem_of_here.
  - apply single_phase_settled_iff_decided; try done.
    + intros (h & cl & args & Hin & _). elem_inv Hin.
    + intros sl args. destruct sl; (split; [ done | ]).
      * exists 0, (RequestResult 0), args. split; [ | done ].
        apply list_elem_of_further, list_elem_of_here.
      * exists 0, (RequestError 0), args. split; [ | done ].
        apply list_elem_of_further, list_elem_of_here.
  - apply rationale_settled_iff_decided.
Qed.

(** * Counting native calls

    A delivery appends one callback, the native calls of its body, and
    settlements; so the native calls in a trace can be counted off the
    callbacks that were invoked. *)

Lemma count_app kind tr l : count kind (tr ++ l) = count kind tr + count kind l.
Proof. unfold count. by rewrite List.filter_app, length_app. Qed.

Lemma count_settles kind l :
  (∀ p o, kind (EvSettle p o) = false) → Forall is_settle l → count kind l = 0.
Proof.
  intros Hk Hs. induction Hs as [ | e l He Hs IH ]; [ done | ].
  destruct e as [ | | p o ]; try done. unfold count in *; simpl. by rewrite Hk.
Qed.

Lemma calls_app l st st' :
  trace st' = trace st ++ l → calls st' = calls st ++ omap as_invocation l.
Proof. intros H. unfold calls. by rewrite H, omap_app. Qed.

Lemma settles_issue_nothing l : Forall is_settle l → omap as_invocation l = [].
Proof.
  intros Hs. induction Hs as [ | e l He Hs IH ]; [ done | ]. by destruct e.
Qed.

(** A delivery whose callback issues no native call leaves the calls as they are. *)
Lemma deliver_calls_kept f st :
  (∀ i sl, calls st !! handle f = Some i → ∀ args q, body (pick sl i) args q = []) →
  calls (exec (deliver f) st) = calls st.
Proof.
  intros Hb. destruct (deliver_appends f st) as [ -> | (i & l & Hi & Hc & Htr & Hs) ];
    [ done | ].
  rewrite (calls_app _ _ _ Htr). rewrite (Hb i (which f) Hi). simpl.
  by rewrite settles_issue_nothing, app_nil_r.
Qed.

Lemma single_call_kept fs st c cb1 cb2 :
  calls st = [(c, cb1, cb2)] →
  (∀ args q, body cb1 args q = []) → (∀ args q, body cb2 args q = []) →
  calls (run fs st) = [(c, cb1, cb2)].
Proof.
  intros Hc H1 H2. revert st Hc. induction fs as [ | f fs IH ]; intros st Hc; [ done | ].
  rewrite run_cons. apply IH. rewrite deliver_calls_kept; [ done | ].
  intros i sl Hi args q. rewrite Hc in Hi.
  destruct (handle f) as [ | h ]; simplify_eq/=. by destruct sl.
Qed.

Lemma delivery_balanced h cl args q l :
  Forall is_settle l →
  let seg := EvCallback h cl args :: body cl args q ++ l in
  count is_request seg = count (is_query_result false) seg + count is_proceed seg
  ∧ count is_rationale_dialog seg = count (is_query_result true) seg
  ∧ count is_error_alert seg = count is_dismissal seg
  ∧ count is_query seg = 0.
Proof.
  intros Hs seg. subst seg.
  change (EvCallback h cl args :: body cl args q ++ l)
    with (([EvCallback h cl args] ++ body cl args q) ++ l).
  rewrite !(count_app _ _ l), !(count_settles _ l) by done.
  destruct cl; try done.
  unfold count; simpl. by destruct (truthy (arg 1 args)).
Qed.

(** Over any run, from any state, the native calls issued and the callbacks
    that issue them grow together. *)
Lemma run_balanced fs st :
  let tr := trace st in
  let tr' := trace (run fs st) in
  count is_query tr' = count is_query tr
  ∧ count is_rationale_dialog tr' + count (is_query_result true) tr
    = count is_rationale_dialog tr + count (is_query_result true) tr'
  ∧ count is_request tr' + count (is_query_result false) tr + count is_proceed tr
    = count is_request tr + count (is_query_result false) tr' + count is_proceed tr'
  ∧ count is_error_alert tr' + count is_dismissal tr
    = count is_error_alert tr + count is_dismissal tr'.
Proof.
  cbv zeta. induction fs as [ | f fs IH ] using rev_ind; [ done | ].
  rewrite run_snoc.
  destruct (deliver_appends f (run fs st)) as [ -> | (i & l & _ & _ & -> & Hs) ];
    [ done | ].
  destruct IH as (I1 & I2 & I3 & I4).
  destruct (delivery_balanced (handle f) (pick (which f) i) (fargs f)
              (length (promises (run fs st))) l Hs) as (D1 & D2 & D3 & D4).
  rewrite !count_app. lia.
Qed.

Lemma dialogs_balanced catalog id title message fs :
  let tr := trace (run fs (awaiting_check catalog id title message)) in
  count is_rationale_dialog tr = count (is_query_result true) tr.
Proof.
  intros tr. subst tr.
  destruct (run_balanced fs (awaiting_check catalog id title message)) as (_ & H & _).
  cbv zeta in H.
  change (count is_rationale_dialog (trace (awaiting_check catalog id title message)))
    with 0 in H.
  change (count (is_query_result true) (trace (awaiting_check catalog id title message)))
    with 0 in H.
  lia.
Qed.

Lemma count_pos kind e tr : e ∈ tr → kind e = true → 0 < count kind tr.
Proof.
  intros Hin Hk. unfold count.
  assert (e ∈ List.filter kind tr) as Hf.
  { apply list_elem_of_In, List.filter_In. split; [ by apply list_elem_of_In | done ]. }
  destruct (List.filter kind tr); [ elem_cases Hf | simpl; lia ].
Qed.

Lemma count_pos_inv kind tr : 0 < count kind tr → ∃ e, e ∈ tr ∧ kind e = true.
Proof.
  unfold count. intros Hpos.
  destruct (List.filter kind tr) as [ | e l ] eqn:E; [ simpl in Hpos; lia | ].
  assert (List.In e (List.filter kind tr)) as Hin by (rewrite E; by left).
  apply List.filter_In in Hin as [ Hin Hk ]. exists e. split; [ | done ].
  by apply list_elem_of_In.
Qed.

(** * The chain behind a native request, job by job *)

Lemma settle_settled p o st : state_of st p ≠ Pending → exec (settle p o) st = st.
Proof.
  intros H. unfold exec, settle, state_of in *.
  destruct (promises st !! p) as [ [ [ | o' ] rs ] | ]; done.
Qed.

(** Settling a promise nobody reacts to. *)
Lemma settle_plain p o s st :
  promises st !! p = Some (Cell s []) →
  exec (settle p o) st =
  match s with
  | Pending => Machine (this_PERMISSIONS st) (<[p := Cell (Settled o) []]> (promises st))
                       (jobs st) (trace st ++ [EvSettle p o])
  | Settled _ => st
  end.
Proof.
  intros Hp. destruct s as [ | o' ].
  - rewrite (settle_fires_eq p o st [] Hp). simpl. f_equal. apply app_nil_r.
  - apply settle_settled. unfold state_of. by rewrite Hp.
Qed.

Lemma run_jobs_idle n st : jobs st = [] → exec (run_jobs n) st = st.
Proof. intros Hq. unfold exec. destruct n; simpl; by rewrite ?Hq. Qed.

Lemma run_job_pass o d st : exec (run_job (Job None o d)) st = exec (settle d o) st.
Proof. reflexivity. Qed.

Lemma run_job_then p o d st :
  exec (run_job (Job (Some (ThenGranted p)) o d)) st =
  exec (settle d (Fulfilled VUndefined)) (exec (settle p (Fulfilled (payload o))) st).
Proof.
  unfold run_job, call_handler, resolve, exec, mbind, M_bind; simpl.
  by destruct (settle p (Fulfilled (payload o)) st) as [ [] st1 ].
Qed.

Lemma run_job_catch p o d st :
  exec (run_job (Job (Some (CatchErr p)) o d)) st =
  exec (settle d (Fulfilled VUndefined)) (exec (settle p (Rejected (payload o))) st).
Proof.
  unfold run_job, call_handler, resolve, reject, exec, mbind, M_bind; simpl.
  by destruct (settle p (Rejected (payload o)) st) as [ [] st1 ].
Qed.

Ltac settle_at H :=
  match goal with
  | |- context [ exec (settle ?p ?o) ?s ] =>
      first [ rewrite (settle_plain p o _ s)
                by (cbn [promises]; rewrite ?list_lookup_insert_ne by lia; exact H)
            | rewrite (settle_fires_eq p o s _)
                by (cbn [promises]; rewrite ?list_lookup_insert_ne by lia; exact H)
            | rewrite (settle_settled p o s)
                by (unfold state_of; cbn [promises];
                    rewrite ?list_lookup_insert_ne by lia; by rewrite H) ];
      cbn [promises jobs trace this_PERMISSIONS]
  end.

Ltac step_job :=
  match goal with
  | |- context [ exec (run_jobs (S ?n)) ?s ] =>
      rewrite (run_jobs_step n s _ _ eq_refl);
      unfold with_jobs, mk_job;
      cbn [promises jobs trace this_PERMISSIONS on_fulfilled on_rejected derived];
      rewrite ?run_job_then, ?run_job_catch, ?run_job_pass; cbn [payload]
  end.

Lemma chain_runs st q s0 o :
  jobs st = [] → promises st !! 0 = Some (Cell s0 []) → waiting st q →
  exec drain (exec (settle q o) st) =
  Machine (this_PERMISSIONS st) (chain_heap (promises st) q s0 o) []
          (trace st ++ chain_trace q s0 o).
Proof.
  intros Hq H0 ((Hne & Hq1 & Hq2) & Hq3).
  rewrite (settle_fires_eq q _ st _ Hq1), Hq.
  match goal with |- exec drain ?s = _ => rewrite (drain_more 2 s); generalize (job_budget s) end.
  intros n. cbn [Nat.add]. unfold chain_heap, chain_trace, passed.
  destruct o as [ v | e ], s0 as [ | o0 ]; step_job.
  - settle_at H0. settle_at Hq2. step_job. settle_at Hq3.
    rewrite run_jobs_idle by done. f_equal. by rewrite <- !app_assoc.
  - settle_at H0. settle_at Hq2. step_job. settle_at Hq3.
    rewrite run_jobs_idle by done. f_equal.
    + do 2 f_equal. symmetry. apply list_insert_id. by rewrite list_lookup_insert_ne.
    + by rewrite <- !app_assoc.
  - settle_at Hq2. step_job. settle_at H0. settle_at Hq3.
    rewrite run_jobs_idle by done. f_equal.
    + f_equal. apply list_insert_insert_ne. lia.
    + by rewrite <- !app_assoc.
  - settle_at Hq2. step_job. settle_at H0. settle_at Hq3.
    rewrite run_jobs_idle by done. f_equal.
    + do 2 f_equal. symmetry. apply list_insert_id. by rewrite list_lookup_insert_ne.
    + by rewrite <- !app_assoc.
Qed.

(** * The heap between deliveries

    Every delivery in a run of [requestPermissionWithRationale] keeps the heap
    [orderly]. *)

Lemma first_decision_app tr l :
  first_decision (tr ++ l) =
  match first_decision tr with Some o => Some o | None => first_decision l end.
Proof.
  induction tr as [ | e tr IH ]; [ done | ].
  destruct e as [ | h cl args | ]; simpl; try done. by destruct (verdict cl args).
Qed.

Lemma first_decision_settles l : Forall is_settle l → first_decision l = None.
Proof.
  intros Hs. induction Hs as [ | e l He Hs IH ]; [ done | ]. by destruct e.
Qed.

Lemma first_decision_body cl args q l :
  Forall is_settle l → first_decision (body cl args q ++ l) = None.
Proof.
  intros Hs. rewrite first_decision_app, (first_decision_settles l Hs).
  destruct cl; try done. simpl. by destruct (truthy (arg 1 args)).
Qed.

Lemma first_decision_delivery tr h cl args q l :
  Forall is_settle l →
  first_decision (tr ++ EvCallback h cl args :: body cl args q ++ l) =
  match first_decision tr with
  | Some o => Some o
  | None => verdict cl args
  end.
Proof.
  intros Hs. rewrite first_decision_app. simpl.
  rewrite (first_decision_body cl args q l Hs). by destruct (verdict cl args).
Qed.

Lemma chain_kept st st' q :
  q ≠ 0 →
  promises st' !! q = promises st !! q →
  promises st' !! S q = promises st !! S q →
  promises st' !! S (S q) = promises st !! S (S q) →
  (state_of st 0 ≠ Pending → state_of st' 0 ≠ Pending) →
  waiting st q ∨ chain_done st q → waiting st' q ∨ chain_done st' q.
Proof.
  intros Hne E1 E2 E3 E0 [ ((_ & H1 & H2) & H3) | (o & H1 & H2 & H3 & H4) ].
  - left. unfold waiting, linked. by rewrite E1, E2, E3.
  - right. exists o. unfold state_of in *. rewrite E1, E2, E3. auto.
Qed.

Lemma orderly_rebuild st st' h cl args l :
  orderly st →
  trace st' = trace st ++ EvCallback h cl args :: body cl args (length (promises st)) ++ l →
  Forall is_settle l →
  jobs st' = [] →
  (∃ s0', promises st' !! 0 = Some (Cell s0' [])) →
  (∃ n, length (promises st') = 3 * n + 1) →
  length (promises st) ≤ length (promises st') →
  (∀ c q cb2, EvNative c (RequestResult q) cb2 ∈ trace st →
              waiting st' q ∨ chain_done st' q) →
  (∀ c q cb2, EvNative c (RequestResult q) cb2 ∈ body cl args (length (promises st)) →
              q + 2 < length (promises st') ∧ waiting st' q) →
  (∀ p, length (promises st) ≤ p < length (promises st') →
        ∃ c q cb2, EvNative c (RequestResult q) cb2 ∈ body cl args (length (promises st))
                   ∧ q ≤ p ≤ q + 2) →
  state_of st' 0 =
    match state_of st 0 with
    | Pending => from_option Settled Pending (verdict cl args)
    | s => s
    end →
  orderly st'.
Proof.
  intros (Hq & H0 & (n & Hlen) & Hreq & Hcov & Hdec) Htr Hs Hq' H0' Hlen' Hle Hold Hnew
         Hfill Hstate.
  split_and!; try done.
  - intros c q cb2 Hin. rewrite Htr in Hin.
    apply elem_of_app in Hin as [ Hin | Hin ].
    { destruct (Hreq c q cb2 Hin) as (Hk & Hb & _). split_and!; [ done | lia | ].
      by eapply Hold. }
    apply elem_of_cons in Hin as [ Hin | Hin ]; [ done | ].
    apply elem_of_app in Hin as [ Hin | Hin ].
    + destruct (Hnew c q cb2 Hin) as [ Hb Hw ]. split_and!; [ | done | by left ].
      exists n. destruct cl; simpl in Hin; try destruct (truthy (arg 1 args));
        elem_cases Hin; lia.
    + by eapply Forall_forall in Hs; [ | exact Hin ].
  - intros p Hp. rewrite Htr.
    destruct (decide (p < length (promises st))) as [ Hlt | Hge ].
    + destruct (Hcov p) as (c & q & cb2 & Hin & Hr); [ lia | ].
      exists c, q, cb2. split; [ | done ]. apply elem_of_app. by left.
    + destruct (Hfill p) as (c & q & cb2 & Hin & Hr); [ lia | ].
      exists c, q, cb2. split; [ | done ].
      apply elem_of_app. right. apply list_elem_of_further, elem_of_app. by left.
  - rewrite Hstate, Htr, first_decision_delivery by done. rewrite Hdec.
    destruct (first_decision (trace st)); [ done | ]. by destruct (verdict cl args).
Qed.

(** Settling the returned promise, to which nobody reacts. *)
Lemma outer_settled st s0 o :
  jobs st = [] → promises st !! 0 = Some (Cell s0 []) →
  promises (exec drain (exec (settle 0 o) st))
  = <[0 := Cell (match s0 with Pending => Settled o | _ => s0 end) []]> (promises st).
Proof.
  intros Hq H0. rewrite (settle_plain 0 o s0 st H0). destruct s0.
  - by rewrite drain_idle.
  - rewrite drain_idle by done. symmetry. by apply list_insert_id.
Qed.

Lemma orderly_outer_settled st st' s0 o h cl args l :
  orderly st → promises st !! 0 = Some (Cell s0 []) →
  trace st' = trace st ++ EvCallback h cl args :: body cl args (length (promises st)) ++ l →
  Forall is_settle l →
  jobs st' = [] →
  promises st' = <[0 := Cell (match s0 with Pending => Settled o | _ => s0 end) []]> (promises st) →
  verdict cl args = Some o →
  (∀ c q cb2, EvNative c (RequestResult q) cb2 ∉ body cl args (length (promises st))) →
  orderly st'.
Proof.
  intros Ho H0 Htr Hs Hq' Hp Hv Hb.
  pose proof Ho as (Hq & _ & (n & Hlen) & Hreq & _ & Hdec).
  assert (0 < length (promises st)) as Hpos by lia.
  apply (orderly_rebuild st st' h cl args l); try done.
  - eexists. rewrite Hp. by apply list_lookup_insert_eq.
  - exists n. by rewrite Hp, length_insert.
  - by rewrite Hp, length_insert.
  - intros c q cb2 Hin. destruct (Hreq c q cb2 Hin) as ((k & ->) & Hb' & Hw).
    apply (chain_kept st st'); try done; rewrite ?Hp.
    + lia.
    + by rewrite list_lookup_insert_ne by lia.
    + by rewrite list_lookup_insert_ne by lia.
    + by rewrite list_lookup_insert_ne by lia.
    + unfold state_of. rewrite Hp, H0, list_lookup_insert_eq by done. simpl. by destruct s0.
  - intros c q cb2 Hin. by apply Hb in Hin.
  - intros p Hlt. rewrite Hp, length_insert in Hlt. lia.
  - unfold state_of. rewrite Hp, H0, list_lookup_insert_eq by done. simpl.
    rewrite Hv. by destruct s0.
Qed.

(** Issuing a native request: three new promises, chained to the outer one. *)
Lemma orderly_request_issued st st' h cl args l perm :
  orderly st →
  trace st' = trace st ++ EvCallback h cl args :: body cl args (length (promises st)) ++ l →
  Forall is_settle l →
  jobs st' = [] →
  promises st' =
    promises st ++
      [Cell Pending [Reaction (Some (ThenGranted 0)) None (S (length (promises st)))];
       Cell Pending [Reaction None (Some (CatchErr 0)) (S (S (length (promises st))))];
       Cell Pending []] →
  verdict cl args = None →
  body cl args (length (promises st))
  = [EvNative (AP_requestPermission perm) (RequestResult (length (promises st)))
              (RequestError (length (promises st)))] →
  orderly st'.
Proof.
  intros Ho Htr Hs Hq' Hp Hd Hb.
  pose proof Ho as (Hq & (s0 & H0) & (n & Hlen) & Hreq & _ & Hdec).
  apply (orderly_rebuild st st' h cl args l); try done.
  - exists s0. rewrite Hp. by apply lookup_app_l_Some.
  - exists (S n). rewrite Hp, length_app. simpl. lia.
  - rewrite Hp, length_app. lia.
  - intros c q cb2 Hin. destruct (Hreq c q cb2 Hin) as ((k & ->) & Hb' & Hw).
    apply (chain_kept st st'); try done; rewrite ?Hp.
    + lia.
    + by rewrite lookup_app_l by lia.
    + by rewrite lookup_app_l by lia.
    + by rewrite lookup_app_l by lia.
    + unfold state_of. by rewrite Hp, (lookup_app_l_Some _ _ _ _ H0), H0.
  - intros c q cb2 Hin. rewrite Hb in Hin. elem_cases Hin.
    unfold waiting, linked. rewrite Hp, length_app. simpl. split; [ lia | ].
    split; [ split_and! | ].
    + lia.
    + by apply list_lookup_middle.
    + rewrite lookup_app_r by lia.
      by replace (S (length (promises st)) - length (promises st)) with 1 by lia.
    + rewrite lookup_app_r by lia.
      by replace (S (S (length (promises st))) - length (promises st)) with 2 by lia.
  - intros p Hlt. rewrite Hp, length_app in Hlt. simpl in Hlt.
    eexists _, _, _. split; [ rewrite Hb; apply list_elem_of_here | lia ].
  - unfold state_of. rewrite Hp, (lookup_app_l_Some _ _ _ _ H0), H0, Hd. simpl.
    by destruct s0.
Qed.

(** A callback that leaves the heap as it is. *)
Lemma orderly_heap_kept st st' h cl args l :
  orderly st →
  trace st' = trace st ++ EvCallback h cl args :: body cl args (length (promises st)) ++ l →
  Forall is_settle l →
  jobs st' = [] →
  promises st' = promises st →
  (is_Some (verdict cl args) → state_of st 0 ≠ Pending) →
  (∀ c q cb2, EvNative c (RequestResult q) cb2 ∉ body cl args (length (promises st))) →
  orderly st'.
Proof.
  intros Ho Htr Hs Hq' Hp Hd Hb.
  pose proof Ho as (Hq & (s0 & H0) & (n & Hlen) & Hreq & _ & Hdec).
  apply (orderly_rebuild st st' h cl args l); try done.
  - exists s0. by rewrite Hp.
  - exists n. by rewrite Hp.
  - by rewrite Hp.
  - intros c q cb2 Hin. destruct (Hreq c q cb2 Hin) as ((k & ->) & Hb' & Hw).
    apply (chain_kept st st'); try done; rewrite ?Hp; try done.
    + lia.
    + unfold state_of. by rewrite Hp.
  - intros c q cb2 Hin. by apply Hb in Hin.
  - intros p Hlt. rewrite Hp in Hlt. lia.
  - unfold state_of in *. rewrite Hp.
    destruct (verdict cl args); [ | by destruct (promises st !! 0) as [ [ [] ] | ] ].
    specialize (Hd (mk_is_Some _ _ eq_refl)).
    by destruct (promises st !! 0) as [ [ [] ] | ].
Qed.

(** The native request behind promise [q] is answered while its chain waits. *)
Lemma orderly_chain_run st st' s0 q o h cl args l :
  orderly st → promises st !! 0 = Some (Cell s0 []) →
  trace st' = trace st ++ EvCallback h cl args :: body cl args (length (promises st)) ++ l →
  Forall is_settle l →
  jobs st' = [] →
  (∃ c cb2, EvNative c (RequestResult q) cb2 ∈ trace st) →
  waiting st q →
  promises st' = chain_heap (promises st) q s0 o →
  verdict cl args = Some o →
  (∀ c q cb2, EvNative c (RequestResult q) cb2 ∉ body cl args (length (promises st))) →
  orderly st'.
Proof.
  intros Ho H0 Htr Hs Hq' (c0 & cb0 & Hq0) Hw Hp Hv Hb.
  pose proof Ho as (Hq & _ & (n & Hlen) & Hreq & _ & Hdec).
  destruct (Hreq _ _ _ Hq0) as ((k0 & Hk0) & Hb0 & _).
  assert (length (promises st') = length (promises st)) as Hl'.
  { rewrite Hp. unfold chain_heap. by rewrite !length_insert. }
  assert (promises st' !! 0
          = Some (Cell (match s0 with Pending => Settled o | _ => s0 end) [])) as H0'.
  { rewrite Hp. unfold chain_heap. rewrite !list_lookup_insert_ne by lia.
    apply list_lookup_insert_eq. rewrite length_insert. lia. }
  assert (state_of st' 0 ≠ Pending) as Hset.
  { unfold state_of. rewrite H0'. simpl. by destruct s0. }
  apply (orderly_rebuild st st' h cl args l); try done.
  - by eexists.
  - exists n. by rewrite Hl'.
  - by rewrite Hl'.
  - intros c q' cb2 Hin. destruct (Hreq c q' cb2 Hin) as ((k & Hk) & Hb' & Hw').
    destruct (decide (q' = q)) as [ -> | Hne ].
    + right. exists o. unfold state_of. rewrite Hp. unfold chain_heap. split_and!.
      * rewrite !list_lookup_insert_ne by lia.
        by rewrite list_lookup_insert_eq by lia.
      * rewrite list_lookup_insert_ne by lia.
        by rewrite list_lookup_insert_eq by (rewrite !length_insert; lia).
      * by rewrite list_lookup_insert_eq by (rewrite !length_insert; lia).
      * fold (chain_heap (promises st) q s0 o). rewrite <- Hp. exact Hset.
    + apply (chain_kept st st'); try done; rewrite ?Hp; unfold chain_heap.
      * lia.
      * by rewrite !list_lookup_insert_ne by lia.
      * by rewrite !list_lookup_insert_ne by lia.
      * by rewrite !list_lookup_insert_ne by lia.
  - intros c q' cb2 Hin. by apply Hb in Hin.
  - intros p Hlt. lia.
  - unfold state_of at 1. rewrite H0'. unfold state_of. rewrite H0, Hv. simpl.
    by destruct s0.
Qed.

Section Orderly.
Context (id title message : string).

Lemma orderly_deliver f st :
  causal id title message (trace st) → orderly st → orderly (exec (deliver f) st).
Proof.
  intros Hc Ho.
  destruct (calls st !! handle f) as [ i | ] eqn:Hi;
    [ | unfold exec, deliver; by rewrite Hi ].
  destruct (callable (pick (which f) i)) eqn:Hcall;
    [ | unfold exec, deliver; by rewrite Hi, Hcall ].
  pose proof (issued_call_in_trace st _ _ Hi) as Hin.
  pose proof Hc as (Hj & _ & _). eapply Forall_forall in Hj; [ | exact Hin ].
  destruct (deliver_trace f st i Hi Hcall) as (l & Htr & Hs).
  pose proof (deliver_unfold f st i Hi Hcall) as Hst.
  pose proof Ho as (Hq & (s0 & H0) & _ & Hreq & _ & _).
  pose proof (deliver_quiescent f st Hq) as Hq'.
  destruct i as [ [ c cb1 ] cb2 ]. destruct f as [ h sl args ].
  cbn [handle which fargs fst snd] in *.
  set (st1 := exec (emit (EvCallback h (pick sl (c, cb1, cb2)) args)) st) in *.
  destruct c as [ p | p | p | [ t | ] m ]; [ done | | | | ].
  - (* an answer to the native request *)
    destruct Hj as (-> & (q & -> & ->) & _).
    destruct (Hreq _ _ _ Hin) as (_ & _ & [ Hw | Hdone ]).
    + destruct sl; cbn [pick fst snd] in *.
      * eapply (orderly_chain_run st _ s0 q (Fulfilled (arg 1 args)) h (RequestResult q) args l);
          try done.
        -- by eexists _, _.
        -- rewrite Hst. simpl. unfold resolve. by rewrite (chain_runs st1 q s0 _ Hq H0 Hw).
        -- intros c q' cb2 Hb. simpl in Hb. elem_cases Hb.
      * eapply (orderly_chain_run st _ s0 q (Rejected (arg 0 args)) h (RequestError q) args l);
          try done.
        -- by eexists _, _.
        -- rewrite Hst. simpl. unfold reject. by rewrite (chain_runs st1 q s0 _ Hq H0 Hw).
        -- intros c q' cb2 Hb. simpl in Hb. elem_cases Hb.
    + destruct Hdone as (o & Ho' & _ & _ & Hne0).
      assert (state_of st1 q ≠ Pending) as Hne
        by (change (state_of st q ≠ Pending); by rewrite Ho').
      destruct sl; cbn [pick fst snd] in *.
      * eapply (orderly_heap_kept st _ h (RequestResult q) args l); try done.
        -- rewrite Hst. simpl. unfold resolve.
           rewrite (settle_settled q _ st1 Hne). by rewrite drain_idle.
        -- intros c q' cb2 Hb. simpl in Hb. elem_cases Hb.
      * eapply (orderly_heap_kept st _ h (RequestError q) args l); try done.
        -- rewrite Hst. simpl. unfold reject.
           rewrite (settle_settled q _ st1 Hne). by rewrite drain_idle.
        -- intros c q' cb2 Hb. simpl in Hb. elem_cases Hb.
  - (* an answer to the rationale query *)
    destruct Hj as (-> & -> & ->). destruct sl; cbn [pick fst snd] in *.
    + destruct (truthy (arg 1 args)) eqn:Ht.
      * eapply (orderly_heap_kept st _ h (RationaleResult 0 id title message) args l);
          try done.
        -- rewrite Hst. simpl. rewrite ?Ht. by rewrite drain_idle.
        -- by intros [ o Ho' ].
        -- intros c q' cb2 Hb. simpl in Hb. rewrite ?Ht in Hb. elem_cases Hb.
      * eapply (orderly_request_issued st _ h (RationaleResult 0 id title message) args l id);
          try done.
        -- rewrite Hst. simpl. rewrite ?Ht.
           rewrite rationale_requestPermission_effect. by rewrite drain_idle.
        -- simpl. by rewrite ?Ht.
    + eapply (orderly_outer_settled st _ s0 (Rejected (arg 0 args)) h (RationaleError 0) args l);
        try done.
      * rewrite Hst. simpl. unfold reject. by rewrite (outer_settled st1 s0 _ Hq H0).
      * intros c q' cb2 Hb. simpl in Hb. elem_cases Hb.
  - (* an answer to the rationale dialog *)
    destruct Hj as (-> & -> & _). destruct sl; cbn [pick fst snd] in *.
    + eapply (orderly_outer_settled st _ s0 (Rejected VUndefined) h (DialogDismissed 0) args l);
        try done.
      * rewrite Hst.
        change (exec (call (DialogDismissed 0) args) st1)
          with (exec (settle 0 (Rejected VUndefined))
                  (exec (native (DM_showAlert None "Error Requesting Permissions")
                                EmptyObject EmptyObject) st1)).
        by rewrite (outer_settled
                      (exec (native (DM_showAlert None "Error Requesting Permissions")
                                    EmptyObject EmptyObject) st1) s0 _ Hq H0).
      * intros c q' cb2 Hb. simpl in Hb. elem_cases Hb.
    + eapply (orderly_request_issued st _ h (RequestPermissionThunk 0 id) args l id);
        try done.
      rewrite Hst. simpl. rewrite rationale_requestPermission_effect. by rewrite drain_idle.
  - (* the error alert has no callbacks *)
    destruct Hj as (-> & ->). by destruct sl.
Qed.

Lemma orderly_run catalog fs :
  orderly (run fs (awaiting_check catalog id title message)).
Proof.
  induction fs as [ | f fs IH ] using rev_ind.
  - split_and!; try done.
    + by eexists.
    + by exists 0.
    + intros c q cb2 Hin. elem_inv Hin.
    + simpl. lia.
  - rewrite run_snoc. apply orderly_deliver; [ apply causal_run | done ].
Qed.
End Orderly.

(** A single-phase operation: one promise, one native call, two decisive
    callbacks. *)
Lemma single_phase_first_decision c cb1 cb2 fs st :
  (∀ sl args, ∃ o,
      verdict (pick sl (c, cb1, cb2)) args = Some o
      ∧ call (pick sl (c, cb1, cb2)) args = settle 0 o
      ∧ ∀ q, body (pick sl (c, cb1, cb2)) args q = []) →
  jobs st = [] → (∃ s0, promises st = [Cell s0 []]) → calls st = [(c, cb1, cb2)] →
  state_of st 0 = from_option Settled Pending (first_decision (trace st)) →
  state_of (run fs st) 0 = from_option Settled Pending (first_decision (trace (run fs st))).
Proof.
  intros Hcl. revert st. induction fs as [ | f fs IH ]; intros st Hq (s0 & Hp) Hc Hst;
    [ done | ].
  rewrite run_cons.
  destruct (deliver_appends f st) as [ -> | (i & l & Hi & Hcall & Htr & Hs) ];
    [ apply IH; eauto | ].
  assert (i = (c, cb1, cb2)) as ->.
  { rewrite Hc in Hi. destruct (handle f); by simplify_eq/=. }
  destruct (Hcl (which f) (fargs f)) as (o & Hd & Hcall' & Hb).
  assert (promises (exec (deliver f) st)
          = [Cell (match s0 with Pending => Settled o | _ => s0 end) []]) as Hp'.
  { rewrite (deliver_unfold f st _ Hi Hcall), Hcall'.
    match goal with |- context [ exec (settle 0 ?o') ?s ] =>
      rewrite (outer_settled s s0 o' Hq) by (simpl; by rewrite Hp) end.
    simpl. by rewrite Hp. }
  apply IH.
  - by apply deliver_quiescent.
  - by eexists.
  - rewrite deliver_calls_kept; [ done | ]. intros i sl Hi' args q.
    rewrite Hi in Hi'. injection Hi' as <-. by destruct (Hcl sl args) as (o' & _ & _ & Hb').
  - rewrite Htr, first_decision_delivery, Hd by done. unfold state_of in *.
    rewrite Hp'. rewrite Hp in Hst. simpl in *.
    destruct (first_decision (trace st)); simpl in Hst; by subst s0.
Qed.

Lemma first_decision_run catalog o fs :
  let st := run fs (started (invoke o) catalog) in
  state_of st 0 = from_option Settled Pending (first_decision (trace st)).
Proof.
  destruct o as [ id | id | id title message ]; simpl.
  - apply (single_phase_first_decision (AP_checkPermission id) (CheckResult 0) (CheckError 0));
      try done; [ | by eexists ].
    intros sl args. destruct sl; by eexists.
  - apply (single_phase_first_decision (AP_requestPermission id)
             (RequestResult 0) (RequestError 0)); try done; [ | by eexists ].
    intros sl args. destruct sl; by eexists.
  - apply (orderly_run id title message catalog fs).
Qed.

(** The first decision is the verdict of a callback in the trace. *)
Lemma first_decision_origin tr o :
  first_decision tr = Some o →
  ∃ h cl args, EvCallback h cl args ∈ tr ∧ verdict cl args = Some o.
Proof.
  induction tr as [ | e tr IH ]; [ done | ]. intros H.
  assert (first_decision tr = Some o →
          ∃ h cl args, EvCallback h cl args ∈ e :: tr ∧ verdict cl args = Some o) as Hrest.
  { intros H'. destruct (IH H') as (h & cl & args & Hin & Hv).
    exists h, cl, args. split; [ by apply list_elem_of_further | done ]. }
  destruct e as [ | h cl args | ]; simpl in H; auto.
  destruct (verdict cl args) as [ o' | ] eqn:Hv; auto.
  injection H as ->. exists h, cl, args. split; [ apply list_elem_of_here | done ].
Qed.

(** * Answers

    Who answered which call. *)

Lemma answered_callback st h :
  answered st h = true → ∃ cl args, EvCallback h cl args ∈ trace st.
Proof.
  unfold answered. intros H. apply List.existsb_exists in H as (e & Hin & He).
  destruct e as [ | h' cl args | ]; try done. simpl in He.
  apply bool_decide_eq_true in He as ->. exists cl, args. by apply list_elem_of_In.
Qed.

Lemma issued_call_handle st c cb1 cb2 :
  EvNative c cb1 cb2 ∈ trace st → ∃ h, calls st !! h = Some (c, cb1, cb2).
Proof.
  intros Hin. apply list_elem_of_lookup. unfold calls. apply list_elem_of_omap.
  by exists (EvNative c cb1 cb2).
Qed.

Lemma calls_grow f st : calls st `prefix_of` calls (exec (deliver f) st).
Proof.
  destruct (trace_grows [f] st) as [ l Hl ]. exists (omap as_invocation l).
  by apply calls_app.
Qed.

Lemma callbacks_registered_deliver f st :
  callbacks_registered st → callbacks_registered (exec (deliver f) st).
Proof.
  intros Hr h cl args Hin.
  assert (∀ h i, calls st !! h = Some i → calls (exec (deliver f) st) !! h = Some i) as Hkeep.
  { intros h' i Hi. destruct (calls_grow f st) as [ k -> ]. by apply lookup_app_l_Some. }
  destruct (deliver_appends f st) as [ E | (i & l & Hi & Hc & Htr & Hs) ].
  { rewrite E in *. by eapply Hr. }
  rewrite Htr in Hin. apply elem_of_app in Hin as [ Hin | Hin ].
  { destruct (Hr h cl args Hin) as (i' & sl & Hi' & ->). exists i', sl. auto. }
  apply elem_of_cons in Hin as [ Hin | Hin ].
  { simplify_eq. exists i, (which f). auto. }
  apply elem_of_app in Hin as [ Hin | Hin ].
  - destruct (pick (which f) i); simpl in Hin; try destruct (truthy (arg 1 (fargs f)));
      elem_cases Hin.
  - by eapply Forall_forall in Hs; [ | exact Hin ].
Qed.

Lemma callbacks_registered_run o catalog fs :
  callbacks_registered (run fs (started (invoke o) catalog)).
Proof.
  induction fs as [ | f fs IH ] using rev_ind.
  - intros h cl args Hin. destruct o; elem_inv Hin.
  - rewrite run_snoc. by apply callbacks_registered_deliver.
Qed.

(** The callback that answered call [h]. *)
Lemma answer_of st h c cb1 cb2 :
  callbacks_registered st → all_answered st →
  calls st !! h = Some (c, cb1, cb2) → callable cb1 = true →
  ∃ args, EvCallback h cb1 args ∈ trace st ∨ EvCallback h cb2 args ∈ trace st.
Proof.
  intros Hr Ha Hi Hc.
  destruct (answered_callback st h (Ha h c cb1 cb2 Hi Hc)) as (cl & args & Hin).
  destruct (Hr h cl args Hin) as (i & sl & Hi' & ->).
  assert (i = (c, cb1, cb2)) as -> by (unfold invocation in *; congruence).
  exists args. destruct sl; auto.
Qed.

Lemma first_call_kept o catalog fs i :
  calls (started (invoke o) catalog) !! 0 = Some i →
  calls (run fs (started (invoke o) catalog)) !! 0 = Some i.
Proof.
  intros Hi. destruct (trace_grows fs (started (invoke o) catalog)) as [ k Hk ].
  rewrite (calls_app _ _ _ Hk). by apply lookup_app_l_Some.
Qed.

Section Progress.
Context (catalog : gmap string string) (id title message : string) (fs : list firing).
Local Abbreviation st := (run fs (awaiting_check catalog id title message)).

Lemma answered_request_decides :
  all_answered st → request_issued id (trace st) → decided (trace st).
Proof.
  intros Ha (cb1 & cb2 & Hin).
  pose proof (callbacks_registered_run (RequestPermissionWithRationale id title message)
                catalog fs) as Hr.
  destruct (causal_run id title message catalog fs) as (Hj & _ & _).
  eapply Forall_forall in Hj; [ | exact Hin ]. destruct Hj as (_ & (q & -> & ->) & _).
  destruct (issued_call_handle _ _ _ _ Hin) as [ h Hh ].
  destruct (answer_of st h _ _ _ Hr Ha Hh eq_refl) as (args & [ H | H ]).
  - by exists h, (RequestResult q), args.
  - by exists h, (RequestError q), args.
Qed.

Lemma answered_rationale_decides : all_answered st → decided (trace st).
Proof.
  intros Ha.
  pose proof (callbacks_registered_run (RequestPermissionWithRationale id title message)
                catalog fs) as Hr.
  destruct (causal_run id title message catalog fs) as (Hj & Hfalse & Hproceed).
  pose proof (first_call_kept (RequestPermissionWithRationale id title message) catalog fs
                _ eq_refl) as H0.
  destruct (answer_of st 0 _ _ _ Hr Ha H0 eq_refl) as (args & [ H | H ]);
    [ | by exists 0, (RationaleError 0), args ].
  destruct (truthy (arg 1 args)) eqn:Ht;
    [ | apply answered_request_decides; [ done | ];
        apply Hfalse; by exists 0, args ].
  pose proof (dialogs_balanced catalog id title message fs) as Hd. cbv zeta in Hd.
  assert (0 < count (is_query_result true) (trace st)) as Hpos.
  { apply (count_pos _ _ _ H). simpl. by rewrite Ht, bool_decide_eq_true. }
  rewrite <- Hd in Hpos. apply count_pos_inv in Hpos as (e & Hin & He).
  destruct e as [ [ | | | [ t | ] m ] cb1 cb2 | | ]; try done.
  pose proof Hj as Hj'. eapply Forall_forall in Hj'; [ | exact Hin ].
  destruct Hj' as (-> & -> & _).
  destruct (issued_call_handle _ _ _ _ Hin) as [ h Hh ].
  destruct (answer_of st h _ _ _ Hr Ha Hh eq_refl) as (args' & [ H' | H' ]).
  - by exists h, (DialogDismissed 0), args'.
  - apply answered_request_decides; [ done | ]. apply Hproceed. by exists h, args'.
Qed.
End Progress.

Lemma answered_decides catalog o fs :
  let st := run fs (started (invoke o) catalog) in
  all_answered st → decided (trace st).
Proof.
  intros st Ha. pose proof (callbacks_registered_run o catalog fs) as Hr. fold st in Hr.
  destruct o as [ id | id | id title message ].
  - pose proof (first_call_kept (CheckPermission id) catalog fs _ eq_refl) as H0.
    destruct (answer_of st 0 _ _ _ Hr Ha H0 eq_refl) as (args & [ H | H ]).
    + by exists 0, (CheckResult 0), args.
    + by exists 0, (CheckError 0), args.
  - pose proof (first_call_kept (RequestPermission id) catalog fs _ eq_refl) as H0.
    destruct (answer_of st 0 _ _ _ Hr Ha H0 eq_refl) as (args & [ H | H ]).
    + by exists 0, (RequestResult 0), args.
    + by exists 0, (RequestError 0), args.
  - by apply answered_rationale_decides.
Qed.

(** * Invocations leave their surroundings alone *)

Lemma moved_settles_new np nh r (l : list event) p o :
  p < np → EvSettle p o ∉ (move_event np nh r <$> l).
Proof.
  intros Hp Hin. apply list_elem_of_fmap in Hin as (e & He & _).
  destruct e; simplify_eq/=. lia.
Qed.

(** * The native calls of [requestPermissionWithRationale] *)

Lemma native_calls_app l st st' :
  trace st' = trace st ++ l →
  native_calls st' = native_calls st ++ ((λ i, i.1.1) <$> omap as_invocation l).
Proof. intros H. unfold native_calls. by rewrite (calls_app l st st' H), fmap_app. Qed.

Section Alphabet.
Context (id title message : string).

(** The callbacks registered in a run of [requestPermissionWithRationale]
    issue nothing but the dialog, the error alert and the request. *)
Lemma body_calls st h i sl args q c :
  causal id title message (trace st) →
  calls st !! h = Some i →
  c ∈ (λ i, i.1.1) <$> omap as_invocation (body (pick sl i) args q) →
  c ∈ rationale_calls id title message.
Proof.
  intros (Hj & _ & _) Hi Hc.
  pose proof (issued_call_in_trace st _ _ Hi) as Hin.
  eapply Forall_forall in Hj; [ | exact Hin ].
  destruct i as [ [ c' cb1 ] cb2 ]. cbn [fst snd] in *.
  unfold rationale_calls.
  destruct c' as [ p | p | p | [ t | ] m ]; [ done | | | | ].
  - destruct Hj as (-> & (q' & -> & ->) & _). destruct sl; simpl in Hc; elem_cases Hc.
  - destruct Hj as (-> & -> & ->). destruct sl; simpl in Hc; [ | elem_cases Hc ].
    destruct (truthy (arg 1 args)); simpl in Hc; elem_cases Hc; elem_search.
  - destruct Hj as (-> & -> & _). destruct sl; simpl in Hc; elem_cases Hc; elem_search.
  - destruct Hj as (-> & ->). destruct sl; simpl in Hc; elem_cases Hc.
Qed.

End Alphabet.

(** * Well-behaved interactions with single-phase operations *)

(** A well-behaved native layer answers the one call of a single-phase
    operation at most once. *)
Lemma single_phase_script st c cb1 cb2 fs :
  calls st = [(c, cb1, cb2)] → answered st 0 = false →
  (∀ args q, body cb1 args q = []) → (∀ args q, body cb2 args q = []) →
  well_behaved st fs = true →
  fs = [] ∨ ∃ sl args, fs = [Fire 0 sl args].
Proof.
  intros Hc Hu H1 H2 H. destruct fs as [ | [ h sl args ] fs ]; [ by left | right ].
  apply well_behaved_cons in H as [ Ha H ]. unfold answerable in Ha. simpl in Ha.
  rewrite Hc in Ha. destruct h as [ | h ]; [ | done ]. simpl in Ha.
  apply andb_true_iff in Ha as [ _ Hcall ].
  exists sl, args. f_equal. destruct fs as [ | [ h' sl' args' ] fs ]; [ done | ].
  apply well_behaved_cons in H as [ Ha' _ ]. unfold answerable in Ha'. simpl in Ha'.
  set (f := Fire 0 sl args) in *.
  assert (calls (exec (deliver f) st) = [(c, cb1, cb2)]) as Hc'.
  { rewrite deliver_calls_kept; [ done | ]. intros i sl0 Hi args0 q.
    rewrite Hc in Hi. simpl in Hi. injection Hi as <-. by destruct sl0. }
  rewrite Hc' in Ha'. destruct h' as [ | h' ]; [ | done ]. simpl in Ha'.
  apply andb_true_iff in Ha' as [ Hn _ ]. apply negb_true_iff in Hn.
  assert (calls st !! handle f = Some (c, cb1, cb2)) as Hi by (by rewrite Hc).
  destruct (deliver_trace f st _ Hi Hcall) as (l & Htr & _).
  unfold answered in Hn. rewrite Htr, existsb_app in Hn. simpl in Hn.
  by rewrite orb_true_r in Hn.
Qed.

Ltac answered_cases :=
  let h := fresh "h" in
  let Hh := fresh "Hh" in
  intros h ? ? ? Hh ?;
  destruct h as [ | [ | [ | h ] ] ]; vm_compute in Hh; simplify_eq; reflexivity.

(** * Single-phase operations in flight together *)

Lemma invoke_all_snoc os o st :
  invoke_all (os ++ [o]) st = exec (invoke o) (invoke_all os st).
Proof. unfold invoke_all. by rewrite foldl_app. Qed.

Lemma invoke_effect o st :
  exec (invoke o) st =
  Machine (this_PERMISSIONS st) (promises st ++ [Cell Pending []]) (jobs st)
          (trace st ++ [EvNative (call_of (length (promises st)) o).1.1
                                 (call_of (length (promises st)) o).1.2
                                 (call_of (length (promises st)) o).2]).
Proof. by destruct o. Qed.

Lemma in_flight_invoked catalog os : in_flight os [] (invoke_all os (init catalog)).
Proof.
  induction os as [ | o os IH ] using rev_ind; [ by split_and!; [ | | | intros k; simpl; lia ] | ].
  destruct IH as (Hq & Hc & Hl & Hp). rewrite invoke_all_snoc, invoke_effect.
  split_and!; simpl.
  - done.
  - unfold calls in *. cbn [trace]. rewrite omap_app, Hc, imap_app. simpl.
    rewrite Hl, Nat.add_0_r. by destruct (call_of (length os) o) as [ [ ] ].
  - rewrite !length_app, Hl. done.
  - intros k Hk. rewrite length_app in Hk. simpl in Hk.
    destruct (decide (k < length os)) as [ Hlt | Hge ].
    + rewrite lookup_app_l by lia. by apply Hp.
    + assert (k = length os) as -> by lia. rewrite <- Hl. by rewrite list_lookup_middle.
Qed.

Lemma replies_snoc k fs f :
  replies k (fs ++ [f])
  = replies k fs ++ (if decide (handle f = k) then [Fire 0 (which f) (fargs f)] else []).
Proof. unfold replies. rewrite omap_app. simpl. by destruct (decide (handle f = k)). Qed.

Lemma single_phase_contract_snoc rs r :
  single_phase_contract (rs ++ [r])
  = match rs with [] => single_phase_contract [r] | _ => single_phase_contract rs end.
Proof. by destruct rs as [ | [ h [ ] args ] rs ]. Qed.

Lemma single_phase_callback k o sl args :
  single_phase o = true →
  ∃ out, call (pick sl (call_of k o)) args = settle k out
         ∧ callable (pick sl (call_of k o)) = true
         ∧ (∀ sl' a q, body (pick sl' (call_of k o)) a q = [])
         ∧ single_phase_contract [Fire 0 sl args] = Settled out.
Proof.
  intros Ho. destruct o; [ | | done ]; destruct sl; eexists;
    (split_and!; [ reflexivity | reflexivity | by intros [ ] | reflexivity ]).
Qed.

Lemma in_flight_deliver os fs f st :
  forallb single_phase os = true →
  in_flight os fs st → in_flight os (fs ++ [f]) (exec (deliver f) st).
Proof.
  intros Hsp (Hq & Hc & Hl & Hp).
  destruct (calls st !! handle f) as [ i | ] eqn:Hi.
  - pose proof Hi as Hi'. rewrite Hc, list_lookup_imap in Hi'.
    destruct (os !! handle f) as [ o | ] eqn:Ho; [ | done ]. simpl in Hi'.
    injection Hi' as <-.
    assert (single_phase o = true) as Hso.
    { rewrite List.forallb_forall in Hsp. apply Hsp, list_elem_of_In.
      by eapply list_elem_of_lookup_2. }
    destruct (single_phase_callback (handle f) o (which f) (fargs f) Hso)
      as (out & Hcall & Hcb & Hbody & Hcon).
    assert (handle f < length os) as Hlt by (by eapply lookup_lt_Some).
    pose proof (Hp (handle f) Hlt) as Hcell.
    assert (calls (exec (deliver f) st) = imap call_of os) as Hc'.
    { rewrite deliver_calls_kept; [ done | ]. intros i sl Hi''. rewrite Hi in Hi''.
      injection Hi'' as <-. intros a q. apply Hbody. }
    assert (promises (exec (deliver f) st)
            = <[handle f := Cell (match single_phase_contract (replies (handle f) fs) with
                                  | Pending => Settled out
                                  | s => s
                                  end) []]> (promises st)) as Hp'.
    { rewrite (deliver_unfold f st _ Hi Hcb), Hcall.
      match goal with |- context [ exec (settle ?p ?o') ?s ] =>
        rewrite (settle_plain p o' _ s Hcell) end.
      destruct (single_phase_contract (replies (handle f) fs)).
      - by rewrite drain_idle.
      - rewrite drain_idle by done. simpl. symmetry. by apply list_insert_id. }
    split_and!.
    + by apply deliver_quiescent.
    + done.
    + by rewrite Hp', length_insert.
    + intros k Hk. rewrite Hp', replies_snoc.
      destruct (decide (handle f = k)) as [ <- | Hne ].
      * rewrite list_lookup_insert_eq by lia. rewrite single_phase_contract_snoc.
        destruct (replies (handle f) fs) as [ | r rs ] eqn:Hr; [ by rewrite Hcon | ].
        by destruct r as [ h' [ ] a' ].
      * rewrite list_lookup_insert_ne, app_nil_r by done. by apply Hp.
  - assert (exec (deliver f) st = st) as -> by (unfold exec, deliver; by rewrite Hi).
    split_and!; try done. intros k Hk. rewrite replies_snoc.
    rewrite decide_False, app_nil_r; [ by apply Hp | ].
    intros <-. rewrite Hc, list_lookup_imap in Hi.
    destruct (lookup_lt_is_Some_2 os (handle f) Hk) as [ o Ho ]. by rewrite Ho in Hi.
Qed.

Lemma in_flight_run catalog os fs :
  forallb single_phase os = true →
  in_flight os fs (run fs (invoke_all os (init catalog))).
Proof.
  intros Hsp. induction fs as [ | f fs IH ] using rev_ind.
  - apply in_flight_invoked.
  - rewrite run_snoc. by apply in_flight_deliver.
Qed.

(** * The claims *)

(** C1: whatever the native layer fires, the native [requestPermission(id)]
    is called if and only if the query's success callback ran with a false
    [shouldShow], or it ran with a true one and the dialog's proceed callback
    ran. *)
Theorem rationale_requests_iff_phase2
    (catalog : gmap string string) (id title message : string) (fs : list firing) :
  let tr := trace (run fs (awaiting_check catalog id title message)) in
  request_issued id tr
  ↔ query_succeeded id title message tr false
    ∨ (query_succeeded id title message tr true ∧ dialog_proceeded id tr).
Proof.
  intros tr. destruct (causal_run id title message catalog fs) as (Hj & Hq & Hd).
  fold tr in Hj, Hq, Hd. split.
  - intros (cb1 & cb2 & Hin).
    eapply Forall_forall in Hj; [ | exact Hin ]. simpl in Hj. by destruct_and?.
  - intros [ H | [ _ H ] ]; auto.
Qed.

(** C2: when the rationale dialog is dismissed, the overall promise is
    rejected with no error value (it is not fulfilled with false), the native
    permission request is never issued, and the alert "Error Requesting
    Permissions" is shown before the rejection. *)
Theorem rationale_dismissal_rejects_without_request
    (catalog : gmap string string) (id title message : string)
    (fs : list firing) (h : nat) (args : list value) :
  let st := run fs (awaiting_check catalog id title message) in
  well_behaved (awaiting_check catalog id title message) fs = true →
  EvCallback h (DialogDismissed 0) args ∈ trace st →
  state_of st 0 = Settled (Rejected VUndefined)
  ∧ settlements 0 st = [Rejected VUndefined]
  ∧ (∀ p, AP_requestPermission p ∉ native_calls st)
  ∧ ∃ before between after,
      trace st = before ++ error_alert :: between
                   ++ EvSettle 0 (Rejected VUndefined) :: after.
Proof.
  intros st H Hin. subst st. revert Hin. by_script H Ht; intros Hin; elem_inv Hin.
  split_and!; try reflexivity.
  - intros p Hc. elem_inv Hc.
  - match goal with |- ∃ _ _ _, ?tr = _ => exists (take 4 tr), [], [] end.
    reflexivity.
Qed.

Lemma rationale_dismissal_rejects_without_request_witness :
  let fs := [Fire 0 Cb1 [VString "android.permission.CAMERA"; VBool true];
             Fire 1 Cb1 []] in
  let st := run fs (awaiting_check PERMISSIONS "android.permission.CAMERA" "T" "M") in
  (well_behaved (awaiting_check PERMISSIONS "android.permission.CAMERA" "T" "M") fs = true
   ∧ EvCallback 1 (DialogDismissed 0) [] ∈ trace st)
  ∧ state_of st 0 = Settled (Rejected VUndefined)
  ∧ settlements 0 st = [Rejected VUndefined]
  ∧ (∀ p, AP_requestPermission p ∉ native_calls st)
  ∧ ∃ before between after,
      trace st = before ++ error_alert :: between
                   ++ EvSettle 0 (Rejected VUndefined) :: after.
Proof.
  split; [ split; [ reflexivity | vm_compute; elem_search ] | ].
  apply (rationale_dismissal_rejects_without_request
           PERMISSIONS "android.permission.CAMERA" "T" "M"
           [Fire 0 Cb1 [VString "android.permission.CAMERA"; VBool true];
            Fire 1 Cb1 []] 1 []).
  - reflexivity.
  - vm_compute. elem_search.
Defined.

(** C3: when the rationale query fails with an error, the overall promise is
    rejected with that same error, no dialog is shown and no permission
    request is issued. *)
Theorem rationale_query_failure_propagates
    (catalog : gmap string string) (id title message : string)
    (fs : list firing) (h : nat) (args : list value) :
  let st := run fs (awaiting_check catalog id title message) in
  well_behaved (awaiting_check catalog id title message) fs = true →
  EvCallback h (RationaleError 0) args ∈ trace st →
  state_of st 0 = Settled (Rejected (arg 0 args))
  ∧ settlements 0 st = [Rejected (arg 0 args)]
  ∧ (∀ t m, DM_showAlert t m ∉ native_calls st)
  ∧ (∀ p, AP_requestPermission p ∉ native_calls st).
Proof.
  intros st H Hin. subst st. revert Hin. by_script H Ht; intros Hin; elem_inv Hin.
  split_and!; try reflexivity.
  - intros t m Hc. elem_inv Hc.
  - intros p Hc. elem_inv Hc.
Qed.

Lemma rationale_query_failure_propagates_witness :
  let fs := [Fire 0 Cb2 [VString "E_ACTIVITY"]] in
  let st := run fs (awaiting_check PERMISSIONS "android.permission.CAMERA" "T" "M") in
  (well_behaved (awaiting_check PERMISSIONS "android.permission.CAMERA" "T" "M") fs = true
   ∧ EvCallback 0 (RationaleError 0) [VString "E_ACTIVITY"] ∈ trace st)
  ∧ state_of st 0 = Settled (Rejected (VString "E_ACTIVITY"))
  ∧ settlements 0 st = [Rejected (VString "E_ACTIVITY")]
  ∧ (∀ t m, DM_showAlert t m ∉ native_calls st)
  ∧ (∀ p, AP_requestPermission p ∉ native_calls st).
Proof.
  split; [ split; [ reflexivity | vm_compute; elem_search ] | ].
  apply (rationale_query_failure_propagates
           PERMISSIONS "android.permission.CAMERA" "T" "M"
           [Fire 0 Cb2 [VString "E_ACTIVITY"]] 0 [VString "E_ACTIVITY"]).
  - reflexivity.
  - vm_compute. elem_search.
Defined.

(** C4: [checkPermission(id)] fulfils with exactly the boolean the native
    success callback reports and fails with exactly the error the native
    failure callback reports; so does [requestPermission(id)].  The first
    callback invoked decides, whatever the native layer fires afterwards. *)
Theorem single_phase_adapts_native_callbacks
    (catalog : gmap string string) (id perm : string) (b : bool) (e : value)
    (fs : list firing) :
  let success := Fire 0 Cb1 [VString perm; VBool b] in
  let failure := Fire 0 Cb2 [e] in
  observed (run (success :: fs) (started (checkPermission id) catalog))
    = (Settled (Fulfilled (VBool b)), [Fulfilled (VBool b)])
  ∧ observed (run (failure :: fs) (started (checkPermission id) catalog))
    = (Settled (Rejected e), [Rejected e])
  ∧ observed (run (success :: fs) (started (requestPermission id) catalog))
    = (Settled (Fulfilled (VBool b)), [Fulfilled (VBool b)])
  ∧ observed (run (failure :: fs) (started (requestPermission id) catalog))
    = (Settled (Rejected e), [Rejected e]).
Proof.
  intros success failure. split_and!; apply observed_settled;
    auto using coherent_started_check, coherent_started_request.
Qed.

(** C5: when the native layer reports denial to [requestPermission(id)], the
    promise is fulfilled with false; it is never rejected. *)
Theorem requestPermission_denial_fulfils_false
    (catalog : gmap string string) (id perm : string) (fs : list firing) :
  let st := run (Fire 0 Cb1 [VString perm; VBool false] :: fs)
                (started (requestPermission id) catalog) in
  observed st = (Settled (Fulfilled (VBool false)), [Fulfilled (VBool false)])
  ∧ ∀ r, EvSettle 0 (Rejected r) ∉ trace st.
Proof.
  intros st.
  assert (observed st = (Settled (Fulfilled (VBool false)), [Fulfilled (VBool false)]))
    as Hobs.
  { apply observed_settled; auto using coherent_started_request. }
  split; [ done | ]. intros r Hr. apply settle_event_logged in Hr.
  injection Hobs as Hstate Hlog. rewrite Hlog in Hr. elem_inv Hr.
Qed.

(** C6: once phase 2 runs, i.e. once the native permission request has been
    issued, the overall promise of [requestPermissionWithRationale] ends as the
    promise of a direct [requestPermission] of the same identifier does when
    the native layer gives it the same answer: fulfilled with the same value,
    rejected with the same error, or pending while there is no answer; that
    is the single-phase contract applied to the answer. *)
Theorem rationale_phase2_refines_requestPermission
    (catalog : gmap string string) (id title message : string)
    (fs : list firing) (h : nat) (p : string) (cb1 cb2 : closure) :
  let st := run fs (awaiting_check catalog id title message) in
  let direct := run (replies h fs) (started (requestPermission p) catalog) in
  well_behaved (awaiting_check catalog id title message) fs = true →
  calls st !! h = Some (AP_requestPermission p, cb1, cb2) →
  p = id
  ∧ state_of st 0 = state_of direct 0
  ∧ settlements 0 st = settlements 0 direct
  ∧ state_of st 0 = single_phase_contract (replies h fs).
Proof.
  intros st direct H Hin. subst st direct. revert Hin.
  by_script H Ht; intros Hin; vm_compute in Hin;
    destruct h as [ | [ | [ | h ] ] ]; simplify_eq; done.
Qed.

Lemma rationale_phase2_refines_requestPermission_witness :
  let fs := [Fire 0 Cb1 [VString "android.permission.CAMERA"; VBool true];
             Fire 1 Cb2 [];
             Fire 2 Cb1 [VString "android.permission.CAMERA"; VBool true]] in
  let st := run fs (awaiting_check PERMISSIONS "android.permission.CAMERA" "T" "M") in
  let direct := run (replies 2 fs)
                    (started (requestPermission "android.permission.CAMERA") PERMISSIONS) in
  (well_behaved (awaiting_check PERMISSIONS "android.permission.CAMERA" "T" "M") fs = true
   ∧ calls st !! 2 = Some (AP_requestPermission "android.permission.CAMERA",
                           RequestResult 1, RequestError 1))
  ∧ "android.permission.CAMERA" = "android.permission.CAMERA"
  ∧ state_of st 0 = state_of direct 0
  ∧ settlements 0 st = settlements 0 direct
  ∧ state_of st 0 = single_phase_contract (replies 2 fs).
Proof.
  split; [ split; reflexivity | ].
  apply (rationale_phase2_refines_requestPermission
           PERMISSIONS "android.permission.CAMERA" "T" "M"
           [Fire 0 Cb1 [VString "android.permission.CAMERA"; VBool true];
            Fire 1 Cb2 [];
            Fire 2 Cb1 [VString "android.permission.CAMERA"; VBool true]]
           2 "android.permission.CAMERA" (RequestResult 1) (RequestError 1)).
  - reflexivity.
  - reflexivity.
Defined.

(** C7: the catalog maps CAMERA, READ_CONTACTS and ACCESS_FINE_LOCATION to
    the exact platform identifier strings. *)
Theorem PERMISSIONS_exact_identifiers :
  PERMISSIONS !! "CAMERA" = Some "android.permission.CAMERA"
  ∧ PERMISSIONS !! "READ_CONTACTS" = Some "android.permission.READ_CONTACTS"
  ∧ PERMISSIONS !! "ACCESS_FINE_LOCATION" = Some "android.permission.ACCESS_FINE_LOCATION".
Proof. by vm_compute. Qed.

(** C8 (as the code has it): for every operation and every sequence of
    firings the returned promise settles at most once, never both fulfilled
    and rejected and never twice; it has settled, exactly once, if and only if
    the native layer has invoked a decisive callback, and is pending until
    then. *)
Theorem public_operations_settle_at_most_once
    (catalog : gmap string string) (o : operation) (fs : list firing) :
  let st := run fs (started (invoke o) catalog) in
  at_most_once st
  ∧ (length (settlements 0 st) = 1 ↔ decided (trace st))
  ∧ (settlements 0 st = [] ∧ state_of st 0 = Pending ↔ ¬ decided (trace st)).
Proof.
  intros st.
  assert (coherent st) as Hc by apply coherent_kept, coherent_started.
  pose proof (settled_iff_decided catalog o fs) as Hd. fold st in Hd. simpl in Hd.
  split_and!.
  - by apply coherent_at_most_once.
  - rewrite <- Hd, (Hc 0). destruct (state_of st 0); simpl; split; done.
  - rewrite <- Hd, (Hc 0). destruct (state_of st 0); simpl; [ tauto | ].
    split; [ by intros [ ? _ ] | ]. intros H. by destruct H.
Qed.

(** C8 as stated does not hold: with no callback fired, no operation has
    settled. *)
Lemma pending_without_callback :
  let id := "android.permission.CAMERA" in
  length (settlements 0 (run [] (started (checkPermission id) PERMISSIONS))) ≠ 1
  ∧ length (settlements 0 (run [] (started (requestPermission id) PERMISSIONS))) ≠ 1
  ∧ length (settlements 0
              (run [] (started (requestPermissionWithRationale id "T" "M") PERMISSIONS))) ≠ 1.
Proof. vm_compute. split_and!; discriminate. Qed.

(** C9: no operation writes the catalog (whatever it holds, in whatever state
    the machine is), none reads it (runs on machines with different catalogs
    are the same), and the identifier is passed through unexamined: for any
    other identifier, in the catalog or not, the run is the same event for
    event, with only the identifier replaced. *)
Theorem catalog_is_neither_written_nor_read
    (amb : machine) (catalog catalog' : gmap string string)
    (o : operation) (id' : string) (fs : list firing) :
  this_PERMISSIONS (run fs (exec (invoke o) amb)) = this_PERMISSIONS amb
  ∧ (trace (run fs (started (invoke o) catalog'))
       = trace (run fs (started (invoke o) catalog))
     ∧ state_of (run fs (started (invoke o) catalog')) 0
       = state_of (run fs (started (invoke o) catalog)) 0)
  ∧ (trace (run fs (started (invoke (with_permission id' o)) catalog'))
       = rename_event (λ _, id') <$> trace (run fs (started (invoke o) catalog))
     ∧ state_of (run fs (started (invoke (with_permission id' o)) catalog')) 0
       = state_of (run fs (started (invoke o) catalog)) 0
     ∧ settlements 0 (run fs (started (invoke (with_permission id' o)) catalog'))
       = settlements 0 (run fs (started (invoke o) catalog))).
Proof.
  split_and!.
  - apply catalog_kept, invoke_keeps_catalog.
  - destruct (renamed_run catalog catalog' (λ s, s) o fs) as (Htr & _ & _).
    rewrite rename_operation_id in Htr. by rewrite Htr, rename_event_id.
  - destruct (renamed_run catalog catalog' (λ s, s) o fs) as (_ & Hs & _).
    by rewrite rename_operation_id in Hs.
  - apply (renamed_run catalog catalog' (λ _, id') o fs).
  - apply (renamed_run catalog catalog' (λ _, id') o fs).
  - apply (renamed_run catalog catalog' (λ _, id') o fs).
Qed.

(** C10: an operation's outcome and the native calls it issues are determined
    by its arguments and the native layer's answers alone.  Two invocations of
    the same operation, made in any two quiescent states of the machine and
    given the same answers, end with the same state of the returned promise,
    the same settlement, and the same sequence of native calls with the same
    arguments. *)
Theorem public_operations_are_deterministic
    (amb1 amb2 : machine) (o : operation) (fs : list firing) :
  let run1 := run (answer_in amb1 fs) (exec (invoke o) amb1) in
  let run2 := run (answer_in amb2 fs) (exec (invoke o) amb2) in
  jobs amb1 = [] → jobs amb2 = [] →
  state_of run1 (invoke o amb1).1 = state_of run2 (invoke o amb2).1
  ∧ settlements_since amb1 run1 (invoke o amb1).1
    = settlements_since amb2 run2 (invoke o amb2).1
  ∧ issued_since amb1 run1 = issued_since amb2 run2.
Proof.
  intros run1 run2 Hq1 Hq2.
  destruct (invocation_observed amb1 ∅ o fs Hq1) as (Hs1 & Hi1 & Hl1).
  destruct (invocation_observed amb2 ∅ o fs Hq2) as (Hs2 & Hi2 & Hl2).
  fold run1 in Hs1, Hi1, Hl1. fold run2 in Hs2, Hi2, Hl2.
  by rewrite Hs1, Hs2, Hi1, Hi2, Hl1, Hl2.
Qed.

Lemma public_operations_are_deterministic_witness :
  let o := RequestPermissionWithRationale "android.permission.CAMERA" "T" "M" in
  let fs := [Fire 0 Cb1 [VString "android.permission.CAMERA"; VBool false];
             Fire 1 Cb1 [VString "android.permission.CAMERA"; VBool true]] in
  let run1 := run (answer_in fresh_machine fs) (exec (invoke o) fresh_machine) in
  let run2 := run (answer_in busy_machine fs) (exec (invoke o) busy_machine) in
  (jobs fresh_machine = [] ∧ jobs busy_machine = [])
  ∧ state_of run1 (invoke o fresh_machine).1 = state_of run2 (invoke o busy_machine).1
  ∧ settlements_since fresh_machine run1 (invoke o fresh_machine).1
    = settlements_since busy_machine run2 (invoke o busy_machine).1
  ∧ issued_since fresh_machine run1 = issued_since busy_machine run2.
Proof.
  split; [ split; reflexivity | ].
  apply (public_operations_are_deterministic fresh_machine busy_machine
           (RequestPermissionWithRationale "android.permission.CAMERA" "T" "M")
           [Fire 0 Cb1 [VString "android.permission.CAMERA"; VBool false];
            Fire 1 Cb1 [VString "android.permission.CAMERA"; VBool true]]).
  - reflexivity.
  - reflexivity.
Defined.

(** * Further properties of the code *)

(** X1: the catalog has 24 entries, and every one of them maps its name to
    the platform prefix followed by the name itself: [android.permission.]
    for all but ADD_VOICEMAIL, whose prefix is
    [com.android.voicemail.permission.]. *)
Theorem PERMISSIONS_naming_scheme :
  size PERMISSIONS = 24
  ∧ map_Forall (λ name identifier, identifier = scheme name) PERMISSIONS.
Proof.
  split; [ by vm_compute | ].
  apply map_Forall_to_list.
  match goal with
  | |- Forall ?P ?l => let l' := eval vm_compute in l in change (Forall P l')
  end.
  repeat (apply Forall_cons_2; [ by vm_compute | ]). apply Forall_nil_2.
Qed.

(** X2: no two names of the catalog share an identifier. *)
Theorem PERMISSIONS_identifiers_distinct :
  NoDup ((map_to_list PERMISSIONS).*2).
Proof.
  match goal with
  | |- NoDup ?l => let l' := eval vm_compute in l in change (NoDup l')
  end.
  apply (bool_decide_unpack _). by vm_compute.
Qed.

(** X3: whatever the native layer fires, and however often,
    [checkPermission(id)] makes exactly one native call,
    [AndroidPermissions.checkPermission(id)], and [requestPermission(id)]
    exactly one, [AndroidPermissions.requestPermission(id)]: neither shows a
    dialog, and no callback issues a further call. *)
Theorem single_phase_issues_one_native_call
    (catalog : gmap string string) (id : string) (fs : list firing) :
  native_calls (run fs (started (checkPermission id) catalog)) = [AP_checkPermission id]
  ∧ native_calls (run fs (started (requestPermission id) catalog))
    = [AP_requestPermission id].
Proof.
  unfold native_calls. split.
  - by rewrite (single_call_kept fs _ (AP_checkPermission id)
                  (CheckResult 0) (CheckError 0)).
  - by rewrite (single_call_kept fs _ (AP_requestPermission id)
                  (RequestResult 0) (RequestError 0)).
Qed.

(** X4: the callbacks of [checkPermission] and [requestPermission] pass on
    what they are given, unexamined.  The success callback ignores its first
    argument and fulfils with its second, whatever that is, [undefined] when
    it is missing; the failure callback rejects with its first argument,
    [undefined] when it is missing. *)
Theorem single_phase_passes_values_unchecked
    (catalog : gmap string string) (id : string) (args : list value) (fs : list firing) :
  let success := Fire 0 Cb1 args in
  let failure := Fire 0 Cb2 args in
  observed (run (success :: fs) (started (checkPermission id) catalog))
    = (Settled (Fulfilled (arg 1 args)), [Fulfilled (arg 1 args)])
  ∧ observed (run (failure :: fs) (started (checkPermission id) catalog))
    = (Settled (Rejected (arg 0 args)), [Rejected (arg 0 args)])
  ∧ observed (run (success :: fs) (started (requestPermission id) catalog))
    = (Settled (Fulfilled (arg 1 args)), [Fulfilled (arg 1 args)])
  ∧ observed (run (failure :: fs) (started (requestPermission id) catalog))
    = (Settled (Rejected (arg 0 args)), [Rejected (arg 0 args)]).
Proof.
  intros success failure. split_and!; apply observed_settled;
    auto using coherent_started_check, coherent_started_request.
Qed.

(** X5: when every native call is answered at most once,
    [requestPermissionWithRationale] takes at most three answers and makes one
    of five sequences of native calls: the query alone; the query and the
    request; the query and the dialog (with the caller's title and message);
    the query, the dialog and the error alert; the query, the dialog and the
    request. *)
Theorem rationale_native_call_sequences
    (catalog : gmap string string) (id title message : string) (fs : list firing) :
  let st := run fs (awaiting_check catalog id title message) in
  well_behaved (awaiting_check catalog id title message) fs = true →
  length fs ≤ 3
  ∧ native_calls st ∈ rationale_call_sequences id title message.
Proof.
  intros st H. subst st. by_script H Ht; (split; [ simpl; lia | ]);
    unfold rationale_call_sequences;
    match goal with
    | |- ?x ∈ _ => let x' := eval vm_compute in x in change x with x'
    end;
    elem_search.
Qed.

Lemma rationale_native_call_sequences_witness :
  let fs := [Fire 0 Cb1 [VString "android.permission.CAMERA"; VBool true];
             Fire 1 Cb2 [];
             Fire 2 Cb1 [VString "android.permission.CAMERA"; VBool false]] in
  let st := run fs (awaiting_check PERMISSIONS "android.permission.CAMERA" "T" "M") in
  well_behaved (awaiting_check PERMISSIONS "android.permission.CAMERA" "T" "M") fs = true
  ∧ length fs ≤ 3
  ∧ native_calls st ∈ rationale_call_sequences "android.permission.CAMERA" "T" "M".
Proof.
  split; [ reflexivity | ].
  apply (rationale_native_call_sequences
           PERMISSIONS "android.permission.CAMERA" "T" "M"
           [Fire 0 Cb1 [VString "android.permission.CAMERA"; VBool true];
            Fire 1 Cb2 [];
            Fire 2 Cb1 [VString "android.permission.CAMERA"; VBool false]]).
  reflexivity.
Defined.

(** X6: nothing in [requestPermissionWithRationale] remembers that a callback
    has run.  Whatever the native layer fires: the query is made once; the
    rationale dialog is shown once for every time the query's success callback
    ran with a true [shouldShow]; the native request is issued once for every
    time it ran with a false one and once for every time the dialog's second
    callback ran; the error alert is shown once for every time the dialog's
    first callback ran. *)
Theorem rationale_native_calls_counted
    (catalog : gmap string string) (id title message : string) (fs : list firing) :
  let tr := trace (run fs (awaiting_check catalog id title message)) in
  count is_query tr = 1
  ∧ count is_rationale_dialog tr = count (is_query_result true) tr
  ∧ count is_request tr = count (is_query_result false) tr + count is_proceed tr
  ∧ count is_error_alert tr = count is_dismissal tr.
Proof.
  intros tr. subst tr.
  destruct (run_balanced fs (awaiting_check catalog id title message))
    as (H1 & H2 & H3 & H4).
  cbv zeta in H1, H2, H3, H4.
  change (trace (awaiting_check catalog id title message))
    with [EvNative (AP_shouldShowRequestPermissionRationale id)
                   (RationaleResult 0 id title message) (RationaleError 0)]
    in H1, H2, H3, H4.
  unfold count at 2 in H1. unfold count at 2 3 in H2.
  unfold count at 2 3 4 in H3. unfold count at 2 3 in H4.
  simpl in H1, H2, H3, H4. lia.
Qed.


(** X8: an operation invoked while others are in flight gets a promise of
    its own, and answering its native calls changes none of the promises that
    were there before: their cells are untouched, nothing settles them, and
    what the trace recorded stays. *)
Theorem operations_do_not_interfere (amb : machine) (o : operation) (fs : list firing) :
  let st := run (answer_in amb fs) (exec (invoke o) amb) in
  jobs amb = [] →
  (invoke o amb).1 = length (promises amb)
  ∧ take (length (promises amb)) (promises st) = promises amb
  ∧ (∀ p, p < length (promises amb) → state_of st p = state_of amb p)
  ∧ take (length (trace amb)) (trace st) = trace amb
  ∧ (∀ p out, p < length (promises amb) → EvSettle p out ∉ trace_since amb st).
Proof.
  intros st Hq.
  destruct (invocation_embeds amb ∅ (λ s, s) o fs Hq) as [ Hp He ].
  rewrite rename_operation_id in Hp, He. fold st in He.
  destruct He as [ _ Hps _ Htr ]. split_and!.
  - done.
  - by rewrite Hps, take_app_length.
  - intros p Hlt. unfold state_of. by rewrite Hps, lookup_app_l.
  - by rewrite Htr, take_app_length.
  - intros p out Hlt. unfold trace_since. rewrite Htr, drop_app_length.
    by apply moved_settles_new.
Qed.

Lemma operations_do_not_interfere_witness :
  let o := RequestPermission "android.permission.CAMERA" in
  let fs := [Fire 0 Cb2 [VString "E_DENIED"]] in
  let st := run (answer_in busy_machine fs) (exec (invoke o) busy_machine) in
  jobs busy_machine = []
  ∧ (invoke o busy_machine).1 = length (promises busy_machine)
  ∧ take (length (promises busy_machine)) (promises st) = promises busy_machine
  ∧ (∀ p, p < length (promises busy_machine) → state_of st p = state_of busy_machine p)
  ∧ take (length (trace busy_machine)) (trace st) = trace busy_machine
  ∧ (∀ p out, p < length (promises busy_machine) →
              EvSettle p out ∉ trace_since busy_machine st).
Proof.
  split; [ reflexivity | ].
  apply (operations_do_not_interfere busy_machine
           (RequestPermission "android.permission.CAMERA")
           [Fire 0 Cb2 [VString "E_DENIED"]]).
  reflexivity.
Defined.

(** X9: in [requestPermissionWithRationale], for every native request issued
    and whatever the native layer fires, the promise that [.catch] returns is
    never rejected.  Between two callbacks the chain is either untouched (the
    promises of [this.requestPermission], [.then] and [.catch] all pending) or
    has run to its end: the first settled with the native answer, the second
    with what [.then] makes of it, the third fulfilled with [undefined], and
    the returned promise settled. *)
Theorem rationale_chain_ends_fulfilled
    (catalog : gmap string string) (id title message : string) (fs : list firing)
    (c : native_call) (q : nat) (cb2 : closure) :
  let st := run fs (awaiting_check catalog id title message) in
  EvNative c (RequestResult q) cb2 ∈ trace st →
  (∀ r, EvSettle (S (S q)) (Rejected r) ∉ trace st)
  ∧ (state_of st q = Pending ∧ state_of st (S q) = Pending
     ∧ state_of st (S (S q)) = Pending
     ∨ ∃ o, state_of st q = Settled o ∧ state_of st (S q) = Settled (passed o)
            ∧ state_of st (S (S q)) = Settled (Fulfilled VUndefined)
            ∧ state_of st 0 ≠ Pending).
Proof.
  intros st Hin.
  assert (coherent st) as Hc by apply coherent_kept, coherent_started_rationale.
  destruct (orderly_run id title message catalog fs) as (_ & _ & _ & Hreq & _).
  fold st in Hreq. destruct (Hreq c q cb2 Hin) as (_ & _ & Hchain).
  assert (state_of st (S (S q)) = Pending
          ∨ state_of st (S (S q)) = Settled (Fulfilled VUndefined)) as Hlast.
  { destruct Hchain as [ (_ & Hw) | (o & _ & _ & Hd & _) ]; [ left | by right ].
    unfold state_of. by rewrite Hw. }
  split.
  - intros r Hr. apply settle_event_logged in Hr. rewrite (Hc (S (S q))) in Hr.
    destruct Hlast as [ Hl | Hl ]; rewrite Hl in Hr; elem_cases Hr.
  - destruct Hchain as [ ((_ & H1 & H2) & H3) | Hdone ]; [ left | by right ].
    unfold state_of. by rewrite H1, H2, H3.
Qed.

Lemma rationale_chain_ends_fulfilled_witness :
  let fs := [Fire 0 Cb1 [VString "android.permission.CAMERA"; VBool false];
             Fire 1 Cb2 [VString "E_FAILED"]] in
  let st := run fs (awaiting_check PERMISSIONS "android.permission.CAMERA" "T" "M") in
  EvNative (AP_requestPermission "android.permission.CAMERA")
           (RequestResult 1) (RequestError 1) ∈ trace st
  ∧ (∀ r, EvSettle 3 (Rejected r) ∉ trace st)
  ∧ (state_of st 1 = Pending ∧ state_of st 2 = Pending ∧ state_of st 3 = Pending
     ∨ ∃ o, state_of st 1 = Settled o ∧ state_of st 2 = Settled (passed o)
            ∧ state_of st 3 = Settled (Fulfilled VUndefined)
            ∧ state_of st 0 ≠ Pending).
Proof.
  split; [ vm_compute; elem_search | ].
  apply (rationale_chain_ends_fulfilled
           PERMISSIONS "android.permission.CAMERA" "T" "M"
           [Fire 0 Cb1 [VString "android.permission.CAMERA"; VBool false];
            Fire 1 Cb2 [VString "E_FAILED"]]
           (AP_requestPermission "android.permission.CAMERA") 1 (RequestError 1)).
  vm_compute. elem_search.
Defined.

(** X10: in [requestPermissionWithRationale] a rejection never goes
    unhandled inside the module.  Whatever the native layer fires, a promise
    that is rejected is the returned one, which is the caller's, or the
    promise of [this.requestPermission], on which [.then] was called, or the
    promise of [.then], on which [.catch] was called. *)
Theorem rationale_rejections_are_handled
    (catalog : gmap string string) (id title message : string) (fs : list firing)
    (p : nat) (r : value) :
  let st := run fs (awaiting_check catalog id title message) in
  EvSettle p (Rejected r) ∈ trace st →
  p = 0 ∨ ∃ c q cb2, EvNative c (RequestResult q) cb2 ∈ trace st ∧ (p = q ∨ p = S q).
Proof.
  intros st Hin.
  assert (coherent st) as Hc by apply coherent_kept, coherent_started_rationale.
  destruct (orderly_run id title message catalog fs) as (_ & _ & _ & Hreq & Hcov & _).
  fold st in Hreq, Hcov.
  apply settle_event_logged in Hin. rewrite (Hc p) in Hin.
  destruct (state_of st p) as [ | o ] eqn:Hs; [ elem_inv Hin | ].
  elem_cases Hin.
  destruct (decide (p = 0)) as [ | Hne ]; [ by left | right ].
  assert (p < length (promises st)) as Hlt.
  { apply lookup_lt_is_Some. unfold state_of in Hs.
    destruct (promises st !! p); [ by eexists | done ]. }
  destruct (Hcov p) as (c & q & cb2 & Hq & Hr); [ lia | ].
  exists c, q, cb2. split; [ done | ].
  destruct (decide (p = S (S q))) as [ -> | ]; [ | lia ].
  destruct (Hreq c q cb2 Hq) as (_ & _ & [ (_ & Hw) | (o & _ & _ & Hd & _) ]).
  - unfold state_of in Hs. by rewrite Hw in Hs.
  - by rewrite Hd in Hs.
Qed.

Lemma rationale_rejections_are_handled_witness :
  let fs := [Fire 0 Cb1 [VString "android.permission.CAMERA"; VBool false];
             Fire 1 Cb2 [VString "E_FAILED"]] in
  let st := run fs (awaiting_check PERMISSIONS "android.permission.CAMERA" "T" "M") in
  EvSettle 2 (Rejected (VString "E_FAILED")) ∈ trace st
  ∧ (2 = 0 ∨ ∃ c q cb2, EvNative c (RequestResult q) cb2 ∈ trace st ∧ (2 = q ∨ 2 = S q)).
Proof.
  split; [ vm_compute; elem_search | ].
  apply (rationale_rejections_are_handled
           PERMISSIONS "android.permission.CAMERA" "T" "M"
           [Fire 0 Cb1 [VString "android.permission.CAMERA"; VBool false];
            Fire 1 Cb2 [VString "E_FAILED"]] 2 (VString "E_FAILED")).
  vm_compute. elem_search.
Defined.

(** X11: an operation is pending only while a native call awaits its
    answer.  For each of the three operations and whatever the native layer
    fires: once every native call that was given callbacks has been answered,
    the returned promise has settled, exactly once. *)
Theorem pending_only_while_unanswered
    (catalog : gmap string string) (o : operation) (fs : list firing) :
  let st := run fs (started (invoke o) catalog) in
  all_answered st →
  state_of st 0 ≠ Pending ∧ length (settlements 0 st) = 1.
Proof.
  intros st Ha.
  assert (state_of st 0 ≠ Pending) as Hs.
  { apply settled_iff_decided. by apply answered_decides. }
  split; [ done | ].
  assert (coherent st) as Hc by apply coherent_kept, coherent_started.
  rewrite (Hc 0). by destruct (state_of st 0).
Qed.

Lemma pending_only_while_unanswered_witness :
  let o := RequestPermissionWithRationale "android.permission.CAMERA" "T" "M" in
  let fs := [Fire 0 Cb1 [VString "android.permission.CAMERA"; VBool true];
             Fire 1 Cb2 [];
             Fire 2 Cb1 [VString "android.permission.CAMERA"; VBool true]] in
  let st := run fs (started (invoke o) PERMISSIONS) in
  all_answered st
  ∧ state_of st 0 ≠ Pending ∧ length (settlements 0 st) = 1.
Proof.
  assert (all_answered
            (run [Fire 0 Cb1 [VString "android.permission.CAMERA"; VBool true];
                  Fire 1 Cb2 [];
                  Fire 2 Cb1 [VString "android.permission.CAMERA"; VBool true]]
               (started (invoke (RequestPermissionWithRationale
                                   "android.permission.CAMERA" "T" "M")) PERMISSIONS)))
    as Ha.
  { intros h c cb1 cb2 Hh Hc. destruct h as [ | [ | [ | h ] ] ]; by vm_compute in Hh. }
  split; [ exact Ha | ].
  exact (pending_only_while_unanswered PERMISSIONS
           (RequestPermissionWithRationale "android.permission.CAMERA" "T" "M")
           [Fire 0 Cb1 [VString "android.permission.CAMERA"; VBool true];
            Fire 1 Cb2 [];
            Fire 2 Cb1 [VString "android.permission.CAMERA"; VBool true]] Ha).
Defined.

(** X12: when every native call is answered at most once, each of the three
    operations has settled exactly when every native call it was given
    callbacks for has been answered: no call is left waiting once the promise
    has settled, and the promise is not left pending once the last call has
    been answered. *)
Theorem settled_iff_all_answered
    (catalog : gmap string string) (o : operation) (fs : list firing) :
  let st := run fs (started (invoke o) catalog) in
  well_behaved (started (invoke o) catalog) fs = true →
  (state_of st 0 ≠ Pending ↔ all_answered st).
Proof.
  intros st H. split.
  - subst st. destruct o as [ id | id | id title message ]; cbn [invoke] in *.
    + destruct (single_phase_script (started (checkPermission id) catalog)
                  (AP_checkPermission id) (CheckResult 0) (CheckError 0) fs
                  eq_refl eq_refl (λ _ _, eq_refl) (λ _ _, eq_refl) H)
        as [ -> | (sl & args & ->) ]; [ done | ].
      destruct sl; intros _; answered_cases.
    + destruct (single_phase_script (started (requestPermission id) catalog)
                  (AP_requestPermission id) (RequestResult 0) (RequestError 0) fs
                  eq_refl eq_refl (λ _ _, eq_refl) (λ _ _, eq_refl) H)
        as [ -> | (sl & args & ->) ]; [ done | ].
      destruct sl; intros _; answered_cases.
    + change (started (requestPermissionWithRationale id title message) catalog)
        with (awaiting_check catalog id title message) in *.
      by_script H Ht; try done; intros _; answered_cases.
  - intros Ha. apply settled_iff_decided. by apply answered_decides.
Qed.

Lemma settled_iff_all_answered_witness :
  let o := RequestPermissionWithRationale "android.permission.CAMERA" "T" "M" in
  let fs := [Fire 0 Cb1 [VString "android.permission.CAMERA"; VBool true];
             Fire 1 Cb1 []] in
  let st := run fs (started (invoke o) PERMISSIONS) in
  well_behaved (started (invoke o) PERMISSIONS) fs = true
  ∧ (state_of st 0 ≠ Pending ↔ all_answered st).
Proof.
  split; [ reflexivity | ].
  apply (settled_iff_all_answered PERMISSIONS
           (RequestPermissionWithRationale "android.permission.CAMERA" "T" "M")
           [Fire 0 Cb1 [VString "android.permission.CAMERA"; VBool true];
            Fire 1 Cb1 []]).
  reflexivity.
Defined.

(** X13: whatever the native layer fires and whatever arguments it passes,
    [requestPermissionWithRationale(id, title, message)] begins with the
    rationale query for [id], and every native call after it is the dialog
    with the caller's title and message, the alert "Error Requesting
    Permissions" without a title, or the permission request for [id]; the
    [perm] the native layer reports is never used. *)
Theorem rationale_native_calls_alphabet
    (catalog : gmap string string) (id title message : string) (fs : list firing) :
  ∃ rest,
    native_calls (run fs (awaiting_check catalog id title message))
    = AP_shouldShowRequestPermissionRationale id :: rest
    ∧ rest ⊆ rationale_calls id title message.
Proof.
  induction fs as [ | f fs IH ] using rev_ind.
  - exists []. split; [ done | ]. intros c Hc. elem_cases Hc.
  - destruct IH as (rest & Hn & Hsub). rewrite run_snoc.
    destruct (deliver_appends f (run fs (awaiting_check catalog id title message)))
      as [ -> | (i & l & Hi & _ & Htr & Hs) ]; [ by exists rest | ].
    rewrite (native_calls_app _ _ _ Htr), Hn. csimpl.
    rewrite omap_app, (settles_issue_nothing l Hs), app_nil_r.
    eexists. split; [ reflexivity | ].
    intros c Hc. apply elem_of_app in Hc as [ Hc | Hc ]; [ by apply Hsub | ].
    eapply (body_calls id title message); [ apply causal_run | exact Hi | exact Hc ].
Qed.

(** X14: any number of [checkPermission] and [requestPermission] operations
    may be in flight together.  However the native layer interleaves its
    answers, the promise of each is settled by the first answer to its own
    native call and by nothing else (fulfilled with the result or rejected
    with the error, pending while its call has no answer), and no answer
    issues a further native call. *)
Theorem concurrent_single_phase_operations
    (catalog : gmap string string) (os : list operation) (fs : list firing) (k : nat) :
  let st := run fs (invoke_all os (init catalog)) in
  forallb single_phase os = true → k < length os →
  state_of st k = single_phase_contract (replies k fs)
  ∧ length (native_calls st) = length os.
Proof.
  intros st Hsp Hk. destruct (in_flight_run catalog os fs Hsp) as (_ & Hc & _ & Hp).
  fold st in Hc, Hp. split.
  - unfold state_of. by rewrite (Hp k Hk).
  - unfold native_calls. by rewrite length_fmap, Hc, length_imap.
Qed.

Lemma concurrent_single_phase_operations_witness :
  let os := [CheckPermission "android.permission.CAMERA";
             RequestPermission "android.permission.READ_CONTACTS"] in
  let fs := [Fire 1 Cb1 [VString "android.permission.READ_CONTACTS"; VBool false];
             Fire 0 Cb2 [VString "E_ACTIVITY"];
             Fire 1 Cb2 [VString "late"]] in
  let st := run fs (invoke_all os (init PERMISSIONS)) in
  (forallb single_phase os = true ∧ 1 < length os)
  ∧ state_of st 1 = single_phase_contract (replies 1 fs)
  ∧ length (native_calls st) = length os.
Proof.
  split; [ split; [ reflexivity | simpl; lia ] | ].
  apply (concurrent_single_phase_operations PERMISSIONS
           [CheckPermission "android.permission.CAMERA";
            RequestPermission "android.permission.READ_CONTACTS"]
           [Fire 1 Cb1 [VString "android.permission.READ_CONTACTS"; VBool false];
            Fire 0 Cb2 [VString "E_ACTIVITY"];
            Fire 1 Cb2 [VString "late"]] 1).
  - reflexivity.
  - simpl. lia.
Defined.

(** X15: [requestPermissionWithRationale(id, title, message)] never fulfils
    on its own.  Whatever the native layer fires, if the returned promise is
    fulfilled with [v], then the native permission request for [id] was
    issued and its success callback was invoked with [v] as the result. *)
Theorem rationale_fulfils_only_by_request
    (catalog : gmap string string) (id title message : string) (fs : list firing)
    (v : value) :
  let st := run fs (awaiting_check catalog id title message) in
  state_of st 0 = Settled (Fulfilled v) →
  ∃ h q args,
    calls st !! h = Some (AP_requestPermission id, RequestResult q, RequestError q)
    ∧ EvCallback h (RequestResult q) args ∈ trace st
    ∧ arg 1 args = v.
Proof.
  intros st Hs.
  pose proof (first_decision_run catalog
                (RequestPermissionWithRationale id title message) fs) as Hd.
  cbv zeta in Hd. cbn [invoke] in Hd. fold (awaiting_check catalog id title message) in Hd.
  fold st in Hd. rewrite Hs in Hd.
  destruct (first_decision (trace st)) as [ o | ] eqn:Hf; [ | done ].
  injection Hd as <-.
  destruct (first_decision_origin _ _ Hf) as (h & cl & args & Hin & Hv).
  destruct (callbacks_registered_run (RequestPermissionWithRationale id title message)
              catalog fs h cl args Hin) as (i & sl & Hi & ->).
  fold st in Hi.
  pose proof (issued_call_in_trace st _ _ Hi) as Hcall.
  destruct (causal_run id title message catalog fs) as (Hj & _ & _).
  eapply Forall_forall in Hj; [ | exact Hcall ].
  destruct i as [ [ c cb1 ] cb2 ]. cbn [fst snd] in *.
  destruct c as [ p | p | p | [ t | ] m ]; [ done | | | | ].
  - destruct Hj as (-> & (q & -> & ->) & _). destruct sl; [ | done ].
    exists h, q, args. simpl in Hv. by simplify_eq.
  - destruct Hj as (-> & -> & ->). by destruct sl.
  - destruct Hj as (-> & -> & _). by destruct sl.
  - destruct Hj as (-> & ->). by destruct sl.
Qed.

Lemma rationale_fulfils_only_by_request_witness :
  let fs := [Fire 0 Cb1 [VString "android.permission.CAMERA"; VBool true];
             Fire 1 Cb2 [];
             Fire 2 Cb1 [VString "android.permission.CAMERA"; VBool true]] in
  let st := run fs (awaiting_check PERMISSIONS "android.permission.CAMERA" "T" "M") in
  state_of st 0 = Settled (Fulfilled (VBool true))
  ∧ ∃ h q args,
      calls st !! h
      = Some (AP_requestPermission "android.permission.CAMERA",
              RequestResult q, RequestError q)
      ∧ EvCallback h (RequestResult q) args ∈ trace st
      ∧ arg 1 args = VBool true.
Proof.
  split; [ reflexivity | ].
  apply (rationale_fulfils_only_by_request
           PERMISSIONS "android.permission.CAMERA" "T" "M"
           [Fire 0 Cb1 [VString "android.permission.CAMERA"; VBool true];
            Fire 1 Cb2 [];
            Fire 2 Cb1 [VString "android.permission.CAMERA"; VBool true]] (VBool true)).
  reflexivity.
Defined.
